(** * Text normalizer of [string_object_functional.py]

    A shallow embedding of the text-normalization pipeline
    ([count_whitespace], [fix_iz], [split_sentences], [sentence_case],
    [normalize_case], [last_words], [make_sentence_from_last_words],
    [process_homework]) together with the part of Python's [str] and [re]
    that the pipeline calls, and the properties of the specification
    proved or refuted on it. *)

From Stdlib Require Import List NArith ZArith Bool Arith Lia.
From Stdlib Require Ascii String.
From Stdlib Require Import Sorted Permutation.
Import String.StringSyntax.
Import ListNotations.

Set Implicit Arguments.

(** ** Strings

    A Python [str] is a sequence of Unicode code points. *)

Definition char := N.
Definition str := list char.

(** An ASCII literal as a [str]. *)
Definition lit (s : String.string) : str :=
  List.map Ascii.N_of_ascii (String.list_ascii_of_string s).

Delimit Scope string_scope with string.
Arguments lit s%_string.

(** Python [int]. *)
Definition int := Z.

Local Open Scope N_scope.

(** ** Character classes *)

Definition in_range (lo hi c : char) : bool := (lo <=? c) && (c <=? hi).

(** [str.isspace] on one code point; the regex class [\s] of a [str]
    pattern is the same set. *)
Definition isspace (c : char) : bool :=
  in_range 0x09 0x0D c || in_range 0x1C 0x20 c || (c =? 0x85) || (c =? 0xA0)
  || (c =? 0x1680) || in_range 0x2000 0x200A c || (c =? 0x2028)
  || (c =? 0x2029) || (c =? 0x202F) || (c =? 0x205F) || (c =? 0x3000).

(** The class of the two look-arounds of [fix_iz]: the curly quotes U+201C
    and U+201D and the straight quote U+0022. *)
Definition is_quote (c : char) : bool :=
  (c =? 0x201C) || (c =? 0x201D) || (c =? 0x22).

(** [[.!?:]] *)
Definition is_delim (c : char) : bool :=
  (c =? 0x2E) || (c =? 0x21) || (c =? 0x3F) || (c =? 0x3A).

Definition is_upper_ascii (c : char) : bool := in_range 0x41 0x5A c.
Definition is_lower_ascii (c : char) : bool := in_range 0x61 0x7A c.

(** [[a-zA-Z]] *)
Definition is_letter (c : char) : bool := is_lower_ascii c || is_upper_ascii c.

Definition is_digit_ascii (c : char) : bool := in_range 0x30 0x39 c.

Definition is_ascii (c : char) : bool := c <? 0x80.

(** A literal lower-case ASCII letter under the flag [(?i:...)]: the letter,
    its upper case, and the non-ASCII code points whose simple lower case is
    the letter or that are case-equivalent to it (U+0130 and U+0131 for [i],
    U+017F for [s], U+212A for [k]). *)
Definition ignorecase (l : char) (c : char) : bool :=
  (c =? l) || (c =? l - 0x20)
  || ((l =? 0x69) && ((c =? 0x130) || (c =? 0x131)))
  || ((l =? 0x73) && (c =? 0x17F))
  || ((l =? 0x6B) && (c =? 0x212A)).

Definition ascii_lower (c : char) : char := if is_upper_ascii c then c + 0x20 else c.
Definition ascii_upper (c : char) : char := if is_lower_ascii c then c - 0x20 else c.

(** ** The Unicode character database

    The pipeline reaches the database through [str.lower], [str.upper] and
    the regex class [\w].  Below U+0080 these are fixed here; above, they
    are read from a table. *)

Record unicode_data := {
  (** [str.isalnum] of a code point from U+0080 on ([\w] beyond ASCII) *)
  ud_isalnum : char -> bool;
  (** [str.isalpha] of a code point from U+0080 on *)
  ud_isalpha : char -> bool;
  (** the lower case of a code point from U+0080 on, given the code points
      before it (nearest first) and after it: the full mapping, and the two
      forms of capital sigma *)
  ud_lower : str -> char -> str -> str;
  (** the full upper case of a code point from U+0080 on *)
  ud_upper : char -> str
}.

(** The database on the Latin-1 Supplement block (U+0080 to U+00FF); code
    points from U+0100 on are left without case and outside [\w].  Used to
    evaluate the pipeline on texts below U+0100. *)
Definition latin1_isalpha (c : char) : bool :=
  (c =? 0xAA) || (c =? 0xB5) || (c =? 0xBA)
  || in_range 0xC0 0xD6 c || in_range 0xD8 0xF6 c || in_range 0xF8 0xFF c.

Definition latin1_isalnum (c : char) : bool :=
  latin1_isalpha c || (c =? 0xB2) || (c =? 0xB3) || (c =? 0xB9)
  || in_range 0xBC 0xBE c.

Definition latin1_lower (_ : str) (c : char) (_ : str) : str :=
  if in_range 0xC0 0xD6 c || in_range 0xD8 0xDE c then [c + 0x20] else [c].

Definition latin1_upper (c : char) : str :=
  if in_range 0xE0 0xF6 c || in_range 0xF8 0xFE c then [c - 0x20]
  else if c =? 0xDF then [0x53; 0x53]
  else if c =? 0xFF then [0x178]
  else if c =? 0xB5 then [0x39C]
  else [c].

Definition latin1 : unicode_data :=
  {| ud_isalnum := latin1_isalnum; ud_isalpha := latin1_isalpha;
     ud_lower := latin1_lower; ud_upper := latin1_upper |}.

(** ** Errors

    An operation that raises in Python ([IndexError]) returns [None]. *)

Definition bind {A B} (m : option A) (k : A -> option B) : option B :=
  match m with Some a => k a | None => None end.

Notation "x <- m ;; k" := (bind m (fun x => k))
  (at level 61, m at next level, right associativity).

Definition opt_test (p : char -> bool) (o : option char) : bool :=
  match o with Some c => p c | None => false end.

(** ** Regular expressions

    The fragment of [re] the pipeline uses: classes, [\b], one-character
    negative look-behind and look-ahead, greedy repetition of a class,
    concatenation and groups.  A group spans every consumed code point in
    both patterns that have one, so the text of group 1 is the text of the
    match. *)

Inductive regex :=
| Class (p : char -> bool)
| WordBoundary
| NotBehind (p : char -> bool)
| NotAhead (p : char -> bool)
| Star (p : char -> bool)
| Cat (r1 r2 : regex)
| Group (r : regex).

(** One unmatched code point, or the text of one match. *)
Inductive piece :=
| Gap (c : char)
| Hit (m : str).

Definition piece_text (p : piece) : str :=
  match p with Gap c => [c] | Hit m => m end.

Section Pipeline.

Variable ucd : unicode_data.

(** [\w] *)
Definition is_word (c : char) : bool :=
  if is_ascii c then is_letter c || is_digit_ascii c || (c =? 0x5F)
  else ud_isalnum ucd c.

(** [str.isalpha] of one code point *)
Definition isalpha (c : char) : bool :=
  if is_ascii c then is_letter c else ud_isalpha ucd c.

(** [str.lower] *)
Fixpoint lower_from (before : str) (s : str) : str :=
  match s with
  | [] => []
  | c :: r =>
      (if is_ascii c then [ascii_lower c] else ud_lower ucd before c r)
      ++ lower_from (c :: before) r
  end.

Definition str_lower (s : str) : str := lower_from [] s.

(** [str.upper] *)
Definition upper_char (c : char) : str :=
  if is_ascii c then [ascii_upper c] else ud_upper ucd c.

Definition str_upper (s : str) : str := flat_map upper_char s.

(** *** Backtracking matcher

    [run r k prev s] matches [r] at the position whose preceding code point
    is [prev] and whose remaining text is [s], and hands the position after
    the match to [k]; when [k] fails the matcher backtracks. *)

Definition cont := option char -> str -> option (option char * str).

Fixpoint star (p : char -> bool) (k : cont) (prev : option char) (s : str)
  : option (option char * str) :=
  match s with
  | c :: s' =>
      if p c then
        match star p k (Some c) s' with
        | Some r => Some r
        | None => k prev s
        end
      else k prev s
  | [] => k prev s
  end.

Fixpoint run (r : regex) (k : cont) (prev : option char) (s : str)
  : option (option char * str) :=
  match r with
  | Class p =>
      match s with
      | c :: s' => if p c then k (Some c) s' else None
      | [] => None
      end
  | WordBoundary =>
      if xorb (opt_test is_word prev) (opt_test is_word (hd_error s))
      then k prev s else None
  | NotBehind p => if opt_test p prev then None else k prev s
  | NotAhead p => if opt_test p (hd_error s) then None else k prev s
  | Star p => star p k prev s
  | Cat r1 r2 => run r1 (run r2 k) prev s
  | Group r1 => run r1 k prev s
  end.

Definition match_at (r : regex) (prev : option char) (s : str)
  : option (option char * str) :=
  run r (fun prev' s' => Some (prev', s')) prev s.

(** *** Scanning

    The matches of [r] in a text, leftmost first and not overlapping, with
    the code points between them.  The search resumes where the last match
    ended.  Every pattern of the pipeline consumes at least one code point;
    a match of no code point counts as no match.  Each step uses one unit
    of [fuel] and consumes at least one code point, so the length of the
    text is fuel enough ([scan_scanned]). *)

Fixpoint scan (r : regex) (fuel : nat) (prev : option char) (s : str)
  : list piece :=
  match fuel, s with
  | S f, c :: s' =>
      match match_at r prev s with
      | Some (prev', rest) =>
          match (length s - length rest)%nat with
          | O => Gap c :: scan r f (Some c) s'
          | S n => Hit (firstn (S n) s) :: scan r f prev' rest
          end
      | None => Gap c :: scan r f (Some c) s'
      end
  | _, _ => []
  end.

Definition finditer (r : regex) (s : str) : list piece :=
  scan r (length s) None s.

(** [re.sub(r, repl, s)] for a literal replacement *)
Definition re_sub (r : regex) (repl : str) (s : str) : str :=
  flat_map (fun p => match p with Gap c => [c] | Hit _ => repl end)
           (finditer r s).

(** [re.split(r, s)] for a pattern that is one group *)
Fixpoint split_pieces (ps : list piece) : list str :=
  match ps with
  | [] => [[]]
  | Gap c :: ps' =>
      match split_pieces ps' with
      | seg :: rest => (c :: seg) :: rest
      | [] => [[c]]
      end
  | Hit m :: ps' => [] :: m :: split_pieces ps'
  end.

Definition re_split (r : regex) (s : str) : list str :=
  split_pieces (finditer r s).

(** [re.findall(r, s)] for a pattern with one group *)
Fixpoint hits (ps : list piece) : list str :=
  match ps with
  | [] => []
  | Gap _ :: ps' => hits ps'
  | Hit m :: ps' => m :: hits ps'
  end.

Definition re_findall (r : regex) (s : str) : list str :=
  hits (finditer r s).

(** [re.search(r, s)]: the start of the first match, [m.start()] *)
Fixpoint first_hit (ps : list piece) : option nat :=
  match ps with
  | [] => None
  | Hit _ :: _ => Some O
  | Gap _ :: ps' =>
      match first_hit ps' with
      | Some i => Some (S i)
      | None => None
      end
  end.

Definition re_search (r : regex) (s : str) : option nat :=
  first_hit (finditer r s).

(** ** The pipeline *)

(** [sum(1 for ch in text if ch.isspace())] *)
Definition count_whitespace (text : str) : int :=
  fold_left (fun acc ch => if isspace ch then (acc + 1)%Z else acc) text 0%Z.

(** The pattern of [fix_iz]: a negative look-behind on the quote class, [\b],
    [(?i:iz)], [\b], a negative look-ahead on the quote class. *)
Definition iz_pattern : regex :=
  Cat (NotBehind is_quote)
   (Cat WordBoundary
    (Cat (Cat (Class (ignorecase 0x69)) (Class (ignorecase 0x7A)))
     (Cat WordBoundary (NotAhead is_quote)))).

Definition fix_iz (text : str) : str :=
  re_sub iz_pattern [0x69; 0x73] text.

(** The pattern of [split_sentences]: one group holding [[.!?:]] and then
    [\s], repeated greedily. *)
Definition delim_pattern : regex :=
  Group (Cat (Class is_delim) (Star isspace)).

Definition split_sentences (text : str) : list str :=
  re_split delim_pattern text.

(** [[a-zA-Z]] *)
Definition letter_pattern : regex := Class is_letter.

Definition sentence_case (segment : str) : option str :=
  let lower := str_lower segment in
  match re_search letter_pattern lower with
  | None => Some lower
  | Some i =>
      c <- nth_error lower i ;;
      Some (firstn i lower ++ str_upper [c] ++ skipn (i + 1) lower)
  end.

(** The loop of [normalize_case] over [enumerate(parts)]. *)
Fixpoint normalize_loop (i : nat) (parts : list str) (out : list str)
  : option (list str) :=
  match parts with
  | [] => Some out
  | p :: ps =>
      if (i mod 2 =? 0)%nat then
        sc <- sentence_case p ;;
        normalize_loop (S i) ps (out ++ [sc])
      else normalize_loop (S i) ps (out ++ [p])
  end.

Definition normalize_case (text : str) : option str :=
  out <- normalize_loop 0 (split_sentences text) [] ;;
  Some (concat out).

(** [\b([A-Za-z]+)\b] *)
Definition word_pattern : regex :=
  Cat WordBoundary
   (Cat (Group (Cat (Class is_letter) (Star is_letter))) WordBoundary).

(** [tokens[-1]] *)
Definition last_item {A} (l : list A) : option A := nth_error (rev l) 0.

(** The loop of [last_words] over [enumerate(parts)]. *)
Fixpoint last_words_loop (i : nat) (parts : list str) (words : list str)
  : option (list str) :=
  match parts with
  | [] => Some words
  | p :: ps =>
      if (i mod 2 =? 0)%nat then
        let tokens := re_findall word_pattern p in
        match tokens with
        | [] => last_words_loop (S i) ps words
        | _ :: _ =>
            w <- last_item tokens ;;
            last_words_loop (S i) ps (words ++ [w])
        end
      else last_words_loop (S i) ps words
  end.

Definition last_words (text : str) : option (list str) :=
  last_words_loop 0 (split_sentences text) [].

(** [sep.join(words)] *)
Fixpoint join (sep : str) (words : list str) : str :=
  match words with
  | [] => []
  | [w] => w
  | w :: ws => w ++ sep ++ join sep ws
  end.

Definition make_sentence_from_last_words (words : list str) : option str :=
  match words with
  | [] => Some []
  | _ :: _ =>
      let s := join [0x20] words ++ [0x2E] in
      c <- nth_error s 0 ;;
      Some (str_upper [c] ++ skipn 1 s)
  end.

Definition process_homework (text : str) : option (str * int * str) :=
  let whitespace_count := count_whitespace text in
  let fixed := fix_iz text in
  normalized <- normalize_case fixed ;;
  lw <- last_words normalized ;;
  extra <- make_sentence_from_last_words lw ;;
  let final :=
    normalized ++ (match extra with
                   | [] => []
                   | _ :: _ => [0x0A; 0x0A] ++ extra
                   end) in
  Some (final, whitespace_count, extra).

(** ** Notions used by the properties *)

(** The elements at even indices ([i % 2 == 0]) and at odd indices. *)
Fixpoint evens {A} (l : list A) : list A :=
  match l with
  | [] => []
  | x :: r => x :: match r with [] => [] | _ :: r' => evens r' end
  end.

Definition odds {A} (l : list A) : list A := evens (tl l).

(** A segment holds none of the delimiter characters. *)
Definition segment_ok (seg : str) : bool :=
  forallb (fun c => negb (is_delim c)) seg.

(** A delimiter is one delimiter character and then whitespace only. *)
Definition delimiter_ok (d : str) : bool :=
  match d with
  | c :: ws => is_delim c && forallb isspace ws
  | [] => false
  end.

(** Upper-case in place, with [up], the first code point of [s] in the class
    [letter]; the code points before it and after it stay. *)
Fixpoint capitalize_first (letter : char -> bool) (up : char -> str) (s : str)
  : str :=
  match s with
  | [] => []
  | c :: r => if letter c then up c ++ r else c :: capitalize_first letter up r
  end.

(** Apply [f] at even indices and [g] at odd indices. *)
Fixpoint alternate {A} (f g : A -> A) (l : list A) : list A :=
  match l with
  | [] => []
  | x :: r => f x :: alternate g f r
  end.

(** The index of the first code point in the class [p]. *)
Fixpoint find_index (p : char -> bool) (s : str) : option nat :=
  match s with
  | [] => None
  | c :: r => if p c then Some O else option_map S (find_index p r)
  end.

(** The longest prefix in the class [p], and what follows it. *)
Fixpoint take_while (p : char -> bool) (s : str) : str :=
  match s with
  | c :: r => if p c then c :: take_while p r else []
  | [] => []
  end.

Fixpoint drop_while (p : char -> bool) (s : str) : str :=
  match s with
  | c :: r => if p c then drop_while p r else s
  | [] => []
  end.

(** A word begins with a code point in the class [letter]. *)
Definition starts_with (letter : char -> bool) (w : str) : Prop :=
  match w with
  | c :: _ => letter c = true
  | [] => False
  end.

(** The code point before position [p] of [t]. *)
Definition char_before (t : str) (p : nat) : option char :=
  match p with O => None | S q => nth_error t q end.

(** The pattern of [fix_iz] read off as a test on the position whose
    preceding code point is [prev] and whose remaining text is [s]. *)
Definition iz_here (prev : option char) (s : str) : bool :=
  match s with
  | c1 :: c2 :: rest =>
      negb (opt_test is_quote prev)
      && xorb (opt_test is_word prev) (is_word c1)
      && ignorecase 0x69 c1 && ignorecase 0x7A c2
      && xorb (is_word c2) (opt_test is_word (hd_error rest))
      && negb (opt_test is_quote (hd_error rest))
  | _ => false
  end.

(** [fix_iz] finds a match starting at position [p] of [t]. *)
Definition iz_at (t : str) (p : nat) : bool :=
  iz_here (char_before t p) (skipn p t).

(** A standalone occurrence of the word iz, in any of the casings iz, Iz,
    iZ, IZ, at position [p] of [t]: no word character on either side. *)
Definition standalone_iz (t : str) (p : nat) : bool :=
  opt_test (fun c => (c =? 0x69) || (c =? 0x49)) (nth_error t p)
  && opt_test (fun c => (c =? 0x7A) || (c =? 0x5A)) (nth_error t (S p))
  && negb (opt_test is_word (char_before t p))
  && negb (opt_test is_word (nth_error t (p + 2))).

(** A quotation mark right before or right after the two code points at
    position [p]. *)
Definition quote_adjacent (t : str) (p : nat) : bool :=
  opt_test is_quote (char_before t p)
  || opt_test is_quote (nth_error t (p + 2)).

(** The same test at position [p] of a text [s] that has [prev] before it. *)
Definition iz_from (prev : option char) (s : str) (p : nat) : bool :=
  iz_here (match p with O => prev | S q => nth_error s q end) (skipn p s).

(** The same test on the four code points it reads: the one before the
    position, the two at it and the one after them. *)
Definition iz_cond (a b c d : option char) : bool :=
  match b, c with
  | Some c1, Some c2 =>
      negb (opt_test is_quote a)
      && xorb (opt_test is_word a) (is_word c1)
      && ignorecase 0x69 c1 && ignorecase 0x7A c2
      && xorb (is_word c2) (opt_test is_word d)
      && negb (opt_test is_quote d)
  | _, _ => false
  end.

(** Sentence case as the specification words it: the segment in lower case,
    then its first letter in upper case; [letter] is what counts as a
    letter. *)
Definition sentence_case_of (letter : char -> bool) (segment : str) : str :=
  capitalize_first letter upper_char (str_lower segment).

(** The words of a text as the specification words them: the maximal runs
    of letters that have a word boundary on both sides, left to right.
    [letter] is what counts as a letter; [prev] is the code point before
    [s]. *)
Fixpoint words_of (letter : char -> bool) (prev : option char) (s : str)
  : list str :=
  match s with
  | [] => []
  | c :: r =>
      let rest := words_of letter (Some c) r in
      if letter c && negb (opt_test letter prev) then
        let w := c :: take_while letter r in
        if xorb (opt_test is_word prev) (is_word c)
           && xorb (is_word (last w c))
                   (opt_test is_word (hd_error (drop_while letter r)))
        then w :: rest
        else rest
      else rest
  end.

(** The last word of a segment, when it has one. *)
Definition last_word_of (letter : char -> bool) (seg : str) : list str :=
  match rev (words_of letter None seg) with
  | w :: _ => [w]
  | [] => []
  end.

(** The last words of the segments of a text, in order. *)
Definition last_words_of (letter : char -> bool) (text : str) : list str :=
  flat_map (last_word_of letter) (evens (split_sentences text)).

(** The words joined by single spaces, a period appended, the first letter
    in upper case. *)
Definition sentence_of (letter : char -> bool) (words : list str) : str :=
  capitalize_first letter upper_char (join [0x20] words ++ [0x2E]).

(** The text after correction and case normalization, as [sentence_case_of]
    gives it. *)
Definition normalized_of (letter : char -> bool) (text : str) : str :=
  concat (alternate (sentence_case_of letter) (fun d => d)
                    (split_sentences (fix_iz text))).

(** ** Notions used by the proofs *)

(** The code point before the position reached after reading [m]. *)
Definition after (prev : option char) (m : str) : option char :=
  fold_left (fun _ c => Some c) m prev.

(** The continuation that accepts. *)
Definition k_done : cont := fun prev' s' => Some (prev', s').

(** The scan as a derivation.  [scanned r prev s ps]: scanning [s] for [r],
    with [prev] before it, yields the pieces [ps]. *)
Inductive scanned (r : regex) : option char -> str -> list piece -> Prop :=
| scanned_nil prev : scanned r prev [] []
| scanned_gap prev c s ps :
    (forall p' rest, match_at r prev (c :: s) = Some (p', rest) ->
                     rest = c :: s) ->
    scanned r (Some c) s ps ->
    scanned r prev (c :: s) (Gap c :: ps)
| scanned_hit prev m rest ps :
    m <> [] ->
    match_at r prev (m ++ rest) = Some (after prev m, rest) ->
    scanned r (after prev m) rest ps ->
    scanned r prev (m ++ rest) (Hit m :: ps).

(** The pieces of a scan for [fix_iz], each match replaced. *)
Definition iz_repl (ps : list piece) : str :=
  flat_map (fun p => match p with Gap c => [c] | Hit _ => [0x69; 0x73]%N end) ps.

(** ** The script [String_Object.py]

    The script runs the same steps on its text [raw] at top level.  Its
    nested [sentence_case] has the body of the function above.  It collects
    the last words in the loop that builds the cased parts, and it appends
    the extra sentence without testing for an empty word list. *)

Fixpoint script_loop (i : nat) (parts cased_parts last_words : list str)
  : option (list str * list str) :=
  match parts with
  | [] => Some (cased_parts, last_words)
  | p :: ps =>
      if (i mod 2 =? 0)%nat then
        seg <- sentence_case p ;;
        let words := re_findall word_pattern seg in
        match words with
        | [] => script_loop (S i) ps (cased_parts ++ [seg]) last_words
        | _ :: _ =>
            w <- last_item words ;;
            script_loop (S i) ps (cased_parts ++ [seg]) (last_words ++ [w])
        end
      else script_loop (S i) ps (cased_parts ++ [p]) last_words
  end.

(** The two values the script prints: the whitespace count and the final
    text. *)
Definition script (raw : str) : option (int * str) :=
  let original_whitespace_count := count_whitespace raw in
  let fixed_iz := re_sub iz_pattern [0x69; 0x73] raw in
  let parts := re_split delim_pattern fixed_iz in
  r <- script_loop 0 parts [] [] ;;
  let normalized_text := concat (fst r) in
  let extra_sentence := join [0x20] (snd r) ++ [0x2E] in
  c <- nth_error extra_sentence 0 ;;
  let extra_sentence := str_upper [c] ++ skipn 1 extra_sentence in
  let final_text := normalized_text ++ [0x0A; 0x0A] ++ extra_sentence in
  Some (original_whitespace_count, final_text).

(** ** Notions used by the further properties *)

(** The lower-case mapping of the table keeps the layout of a text: it
    writes no delimiter character, and what it writes for a code point that
    is not whitespace is not empty and does not begin with whitespace. *)
Definition layout_safe : Prop :=
  forall before c after,
    is_ascii c = false ->
    forallb (fun x => negb (is_delim x)) (ud_lower ucd before c after) = true
    /\ (isspace c = false ->
        ud_lower ucd before c after <> []
        /\ opt_test isspace (hd_error (ud_lower ucd before c after)) = false).

(** In a list of segments and delimiters, no segment after a delimiter
    begins with whitespace: each delimiter has taken all of it. *)
Fixpoint greedy (l : list str) : bool :=
  match l with
  | _ :: _ :: rest =>
      negb (opt_test isspace (hd_error (hd [] rest))) && greedy rest
  | _ => true
  end.

(** The pieces of a scan that [re.split] turns into [l]. *)
Fixpoint pieces_of (l : list str) : list piece :=
  match l with
  | [] => []
  | seg :: rest =>
      List.map Gap seg
      ++ match rest with
         | [] => []
         | d :: rest' => Hit d :: pieces_of rest'
         end
  end.

(** The number of code points of [s] in the class [p]. *)
Definition count_class (p : char -> bool) (s : str) : nat :=
  length (filter p s).

End Pipeline.

(** * The collections homework

    [merge_by_max_with_index] of [collections_functional.py] and
    [merge_with_rules] of [Collections.py]. *)

(** ** Dictionaries

    A Python [dict] with [str] keys, in insertion order. *)

Fixpoint str_eqb (a b : str) : bool :=
  match a, b with
  | [], [] => true
  | x :: a', y :: b' => (x =? y) && str_eqb a' b'
  | _, _ => false
  end.

Definition dict (V : Type) := list (str * V).

(** [d.get(k)]; [None] is also the [KeyError] of [d[k]]. *)
Fixpoint dict_get {V} (k : str) (d : dict V) : option V :=
  match d with
  | [] => None
  | (k', v) :: r => if str_eqb k k' then Some v else dict_get k r
  end.

(** [d[k] = v]: a key that is present keeps its place. *)
Fixpoint dict_set {V} (k : str) (v : V) (d : dict V) : dict V :=
  match d with
  | [] => [(k, v)]
  | (k', v') :: r =>
      if str_eqb k k' then (k', v) :: r else (k', v') :: dict_set k v r
  end.

(** [str(n)] for an index: its decimal digits. *)
Fixpoint uint_digits (u : Decimal.uint) : str :=
  match u with
  | Decimal.Nil => []
  | Decimal.D0 u' => 0x30 :: uint_digits u'
  | Decimal.D1 u' => 0x31 :: uint_digits u'
  | Decimal.D2 u' => 0x32 :: uint_digits u'
  | Decimal.D3 u' => 0x33 :: uint_digits u'
  | Decimal.D4 u' => 0x34 :: uint_digits u'
  | Decimal.D5 u' => 0x35 :: uint_digits u'
  | Decimal.D6 u' => 0x36 :: uint_digits u'
  | Decimal.D7 u' => 0x37 :: uint_digits u'
  | Decimal.D8 u' => 0x38 :: uint_digits u'
  | Decimal.D9 u' => 0x39 :: uint_digits u'
  end.

Definition str_of_nat (n : nat) : str := uint_digits (Nat.to_uint n).

(** The key with the index of a dict appended, as the f-string writes it. *)
Definition indexed_key (k : str) (idx : nat) : str :=
  k ++ [0x5F] ++ str_of_nat idx.

(** ** [merge_by_max_with_index] *)

(** One pass of the body of the first loop: [winners[k] = (v, idx)] when [k]
    is new or [v] is larger. *)
Definition winners_step (idx : nat) (winners : dict (int * nat))
  (kv : str * int) : dict (int * nat) :=
  let (k, v) := kv in
  match dict_get k winners with
  | None => dict_set k (v, idx) winners
  | Some (best, _) =>
      if (v >? best)%Z then dict_set k (v, idx) winners else winners
  end.

(** [for idx, d in enumerate(dicts, start=1)] *)
Fixpoint winners_loop (idx : nat) (dicts : list (dict int))
  (winners : dict (int * nat)) : dict (int * nat) :=
  match dicts with
  | [] => winners
  | d :: ds => winners_loop (S idx) ds (fold_left (winners_step idx) d winners)
  end.

(** [key_counts[k] = key_counts.get(k, 0) + 1] *)
Definition count_step (key_counts : dict int) (k : str) : dict int :=
  dict_set k (match dict_get k key_counts with
              | Some n => n
              | None => 0
              end + 1)%Z key_counts.

Definition count_loop (dicts : list (dict int)) (key_counts : dict int)
  : dict int :=
  fold_left (fun c d => fold_left count_step (List.map fst d) c) dicts key_counts.

(** The last loop; [renamed c] tells from the count of a key whether the
    key gets the index. *)
Fixpoint result_loop (renamed : int -> bool) (items : list (str * (int * nat)))
  (key_counts : dict int) (result : dict int) : option (dict int) :=
  match items with
  | [] => Some result
  | (k, (val, idx)) :: rest =>
      c <- dict_get k key_counts ;;
      let new_key := if renamed c then indexed_key k idx else k in
      result_loop renamed rest key_counts (dict_set new_key val result)
  end.

Definition merge_by_max_with_index (dicts : list (dict int))
  : option (dict int) :=
  let winners := winners_loop 1 dicts [] in
  let key_counts := count_loop dicts [] in
  result_loop (fun c => (c >? 1)%Z) winners key_counts [].

(** ** [merge_with_rules] *)

(** The body of its one loop: the count, then the best value. *)
Definition rules_step (idx : nat)
  (st : dict (int * nat) * dict int) (kv : str * int)
  : dict (int * nat) * dict int :=
  let (best, counts) := st in
  let counts := count_step counts (fst kv) in
  (winners_step idx best kv, counts).

Fixpoint rules_loop (idx : nat) (dict_list : list (dict int))
  (st : dict (int * nat) * dict int) : dict (int * nat) * dict int :=
  match dict_list with
  | [] => st
  | d :: ds => rules_loop (S idx) ds (fold_left (rules_step idx) d st)
  end.

Definition merge_with_rules (dict_list : list (dict int)) : option (dict int) :=
  let (best, counts) := rules_loop 1 dict_list ([], []) in
  result_loop (fun c => negb (c =? 1)%Z) best counts [].

(** ** Notions used by the properties of the merge *)

(** The dicts that hold [k], numbered from [idx], each with its value. *)
Fixpoint occurrences (k : str) (idx : nat) (dicts : list (dict int))
  : list (nat * int) :=
  match dicts with
  | [] => []
  | d :: ds =>
      match dict_get k d with
      | Some v => [(idx, v)]
      | None => []
      end ++ occurrences k (S idx) ds
  end.

(** The best value so far and the number of the dict it came from. *)
Definition best_step (acc : option (int * nat)) (iv : nat * int)
  : option (int * nat) :=
  match acc with
  | None => Some (snd iv, fst iv)
  | Some (best, _) => if (snd iv >? best)%Z then Some (snd iv, fst iv) else acc
  end.

(** No key of the dicts holds an underscore. *)
Definition plain_keys (dicts : list (dict int)) : Prop :=
  forall d k, In d dicts -> In k (List.map fst d) -> ~ In 0x5F k.

(** Every dict has each of its keys once. *)
Definition well_formed (dicts : list (dict int)) : Prop :=
  forall d, In d dicts -> NoDup (List.map fst d).

(** Every key with a best value has been counted, and no count is below 1. *)
Definition counted (best : dict (int * nat)) (counts : dict int) : Prop :=
  (forall k, dict_get k best <> None ->
             exists n, dict_get k counts = Some n /\ (1 <= n)%Z)
  /\ (forall k n, dict_get k counts = Some n -> (1 <= n)%Z).

(** The key an entry of the winners is stored under. *)
Definition stored_key (renamed : int -> bool) (c : int) (k : str) (idx : nat)
  : str :=
  if renamed c then indexed_key k idx else k.

(** * The sorting script

    The last part of [Collections.py] sorts a list of numbers in place with
    two nested loops and splits it into even and odd numbers.  The script
    draws the list at random; here the list is the input. *)

(** [l[i] = x]; out of range it raises. *)
Definition list_set {A} (l : list A) (i : nat) (x : A) : option (list A) :=
  if (i <? length l)%nat then Some (firstn i l ++ x :: skipn (S i) l) else None.

(** [for j in js: s = body(s, j)] *)
Fixpoint for_each {S} (js : list nat) (body : S -> nat -> option S) (s : S)
  : option S :=
  match js with
  | [] => Some s
  | j :: js' => s' <- body s j ;; for_each js' body s'
  end.

(** The body of the inner loop: compare [numbers[j]] and [numbers[j + 1]]
    and swap them when the first is larger. *)
Definition compare_swap (numbers : list int) (j : nat) : option (list int) :=
  a <- nth_error numbers j ;;
  b <- nth_error numbers (j + 1) ;;
  if (a >? b)%Z then
    l1 <- list_set numbers j b ;;
    list_set l1 (j + 1) a
  else Some numbers.

(** [for j in range(0, len(numbers) - i - 1)] *)
Definition inner_pass (numbers : list int) (i : nat) : option (list int) :=
  for_each (seq 0 (length numbers - i - 1)) compare_swap numbers.

(** [for i in range(len(numbers))] *)
Definition bubble_sort (numbers : list int) : option (list int) :=
  for_each (seq 0 (length numbers)) inner_pass numbers.

(** The even and the odd numbers of the sorted list. *)
Definition even_numbers (numbers : list int) : list int :=
  filter (fun num => (num mod 2 =? 0)%Z) numbers.

Definition odd_numbers (numbers : list int) : list int :=
  filter (fun num => negb (num mod 2 =? 0)%Z) numbers.

(** The three lists of the script. *)
Definition sort_and_split (numbers : list int)
  : option (list int * list int * list int) :=
  sorted <- bubble_sort numbers ;;
  Some (sorted, even_numbers sorted, odd_numbers sorted).

(** [k] compare-and-swap steps from the head of a list on. *)
Fixpoint bubble (k : nat) (l : list int) : list int :=
  match k, l with
  | S k', a :: b :: r =>
      if (a >? b)%Z then b :: bubble k' (a :: r) else a :: bubble k' (b :: r)
  | _, _ => l
  end.

(** After [i] passes the last [i] numbers are in place: [numbers] is a
    permutation of the input, its last [i] numbers are sorted and none
    before them is larger. *)
Definition passes_done (input : list int) (i : nat) (numbers : list int)
  : Prop :=
  exists front back,
    numbers = front ++ back
    /\ length back = i
    /\ length numbers = length input
    /\ StronglySorted Z.le back
    /\ (forall x y, In x front -> In y back -> (x <= y)%Z)
    /\ Permutation input numbers.

(** * Properties *)

Section Properties.

Variable ucd : unicode_data.

Local Open Scope nat_scope.

(** ** The matcher consumes a prefix of the text *)

Lemma after_cons prev c m : after prev (c :: m) = after (Some c) m.
Proof. reflexivity. Qed.

Lemma after_app prev m1 m2 : after prev (m1 ++ m2) = after (after prev m1) m2.
Proof. unfold after. apply fold_left_app. Qed.

Lemma star_sound p (k : cont) s : forall prev a,
  star p k prev s = Some a ->
  exists m s', s = m ++ s' /\ forallb p m = true /\ k (after prev m) s' = Some a.
Proof.
  induction s as [|c s IH]; intros prev a H; simpl in H.
  - exists [], []. auto.
  - destruct (p c) eqn:Hp.
    + destruct (star p k (Some c) s) as [r|] eqn:Hs.
      * injection H as <-. apply IH in Hs.
        destruct Hs as (m & s' & -> & Hm & Hk).
        exists (c :: m), s'. simpl. rewrite Hp, Hm. auto.
      * exists [], (c :: s). auto.
    + exists [], (c :: s). auto.
Qed.

Lemma run_sound r : forall (k : cont) prev s a,
  run ucd r k prev s = Some a ->
  exists m s', s = m ++ s' /\ k (after prev m) s' = Some a.
Proof.
  induction r as [p| |p|p|p|r1 IH1 r2 IH2|r IH]; intros k prev s a H; simpl in H.
  - destruct s as [|c s]; [discriminate|].
    destruct (p c); [|discriminate]. exists [c], s. auto.
  - destruct (xorb _ _); [|discriminate]. exists [], s. auto.
  - destruct (opt_test p prev); [discriminate|]. exists [], s. auto.
  - destruct (opt_test p (hd_error s)); [discriminate|]. exists [], s. auto.
  - apply star_sound in H. destruct H as (m & s' & -> & _ & Hk). eauto.
  - apply IH1 in H. destruct H as (m1 & s1 & -> & H).
    apply IH2 in H. destruct H as (m2 & s2 & -> & H).
    exists (m1 ++ m2), s2. rewrite after_app, app_assoc. auto.
  - apply IH in H. exact H.
Qed.

Lemma match_at_sound r prev s p' rest :
  match_at ucd r prev s = Some (p', rest) ->
  exists m, s = m ++ rest /\ p' = after prev m.
Proof.
  unfold match_at. intros H. apply run_sound in H.
  destruct H as (m & s' & -> & H). injection H as <- <-. eauto.
Qed.


Lemma scan_scanned r : forall fuel s prev,
  length s <= fuel -> scanned ucd r prev s (scan ucd r fuel prev s).
Proof.
  induction fuel as [|f IH]; intros s prev Hlen.
  - destruct s; [constructor | simpl in Hlen; lia].
  - destruct s as [|c s]; [constructor|].
    simpl in Hlen. cbn [scan].
    destruct (match_at ucd r prev (c :: s)) as [[p' rest]|] eqn:Hm.
    + destruct (match_at_sound _ _ _ Hm) as (m & Heq & ->).
      assert (Hl : length (c :: s) - length rest = length m).
      { rewrite Heq, length_app. lia. }
      rewrite Hl. destruct m as [|c' m].
      * simpl. apply scanned_gap; [|apply IH; lia].
        intros p2 rest2 H2. rewrite Hm in H2. injection H2 as _ <-.
        symmetry. exact Heq.
      * cbn [length].
        replace (firstn (S (length m)) (c :: s)) with (c' :: m).
        2:{ rewrite Heq. change (S (length m)) with (length (c' :: m)).
            rewrite firstn_app, Nat.sub_diag, firstn_all. simpl.
            now rewrite app_nil_r. }
        rewrite Heq. apply scanned_hit; [discriminate| now rewrite <- Heq |].
        apply IH. apply (f_equal (@length _)) in Heq.
        rewrite length_app in Heq. simpl in Heq. lia.
    + apply scanned_gap; [|apply IH; lia].
      intros p2 rest2 H2. rewrite Hm in H2. discriminate.
Qed.

Lemma finditer_scanned r s : scanned ucd r None s (finditer ucd r s).
Proof. apply scan_scanned. lia. Qed.

(** The pieces of a scan, put back together, are the text. *)
Lemma scanned_text r prev s ps :
  scanned ucd r prev s ps -> flat_map piece_text ps = s.
Proof.
  induction 1 as [| prev c s ps _ _ IH | prev m rest ps _ _ _ IH]; simpl.
  - reflexivity.
  - now rewrite IH.
  - now rewrite IH.
Qed.

Lemma split_pieces_nonempty ps : split_pieces ps <> [].
Proof.
  destruct ps as [|[c|m] ps]; simpl; try discriminate.
  destruct (split_pieces ps); discriminate.
Qed.

Lemma concat_split_pieces ps :
  concat (split_pieces ps) = flat_map piece_text ps.
Proof.
  induction ps as [|[c|m] ps IH]; simpl.
  - reflexivity.
  - destruct (split_pieces ps) as [|seg rest] eqn:E.
    + now apply split_pieces_nonempty in E.
    + simpl in *. now rewrite <- IH.
  - now rewrite IH.
Qed.

(** C2. Concatenating, in order, every element of [split_sentences t]
    (segments and delimiters alternating, each delimiter kept verbatim with
    its trailing whitespace) gives back [t]. *)
Theorem split_sentences_lossless (t : str) :
  concat (split_sentences ucd t) = t.
Proof.
  unfold split_sentences, re_split.
  rewrite concat_split_pieces.
  apply scanned_text with (r := delim_pattern) (prev := None).
  apply finditer_scanned.
Qed.

(** ** The shape of [split_sentences] *)


Lemma star_done p s : forall prev, exists a, star p k_done prev s = Some a.
Proof.
  induction s as [|c s IH]; intros prev; simpl.
  - eexists. reflexivity.
  - destruct (p c); [|eexists; reflexivity].
    destruct (IH (Some c)) as [a ->]. eauto.
Qed.

Lemma delim_match_gap prev c s :
  (forall p' rest, match_at ucd delim_pattern prev (c :: s) = Some (p', rest) ->
                   rest = c :: s) ->
  is_delim c = false.
Proof.
  intros H. destruct (is_delim c) eqn:Hd; [|reflexivity].
  exfalso. unfold match_at in H. simpl in H. rewrite Hd in H.
  destruct (star_done isspace s (Some c)) as [[p' rest] Hs].
  fold k_done in H. specialize (H _ _ Hs).
  apply star_sound in Hs. destruct Hs as (m & s' & -> & _ & Hk).
  injection Hk as _ ->. apply (f_equal (@length _)) in H.
  simpl in H. rewrite length_app in H. lia.
Qed.

Lemma delim_match_hit prev m rest p' :
  match_at ucd delim_pattern prev (m ++ rest) = Some (p', rest) ->
  delimiter_ok m = true.
Proof.
  unfold match_at. simpl. intros H.
  destruct m as [|c m].
  - exfalso. simpl in H. destruct rest as [|c rest]; [discriminate|].
    destruct (is_delim c); [|discriminate].
    apply star_sound in H. destruct H as (m & s' & Heq & _ & Hk).
    injection Hk as _ ->. apply (f_equal (@length _)) in Heq.
    rewrite length_app in Heq. simpl in Heq. lia.
  - simpl in H. destruct (is_delim c) eqn:Hd; [|discriminate].
    apply star_sound in H. destruct H as (m2 & s' & Heq & Hall & Hk).
    injection Hk as _ ->. apply app_inv_tail in Heq. subst m2.
    simpl. now rewrite Hd, Hall.
Qed.

Lemma evens_cons {A} (x : A) r : evens (x :: r) = x :: odds r.
Proof. destruct r; reflexivity. Qed.

Lemma odds_cons {A} (x : A) r : odds (x :: r) = evens r.
Proof. reflexivity. Qed.

Lemma scanned_delim_shape prev s ps :
  scanned ucd delim_pattern prev s ps ->
  Nat.odd (length (split_pieces ps)) = true
  /\ forallb segment_ok (evens (split_pieces ps)) = true
  /\ forallb delimiter_ok (odds (split_pieces ps)) = true.
Proof.
  induction 1 as [| prev c s ps Hgap _ IH | prev m rest ps _ Hm _ IH].
  - simpl. auto.
  - apply delim_match_gap in Hgap. simpl.
    destruct (split_pieces ps) as [|seg l] eqn:E.
    + now apply split_pieces_nonempty in E.
    + destruct IH as (Hodd & Hseg & Hdel). repeat split.
      * exact Hodd.
      * rewrite evens_cons in *. simpl in *.
        apply andb_true_iff in Hseg. destruct Hseg as [Hs1 Hs2].
        now rewrite Hgap, Hs1, Hs2.
      * exact Hdel.
  - apply delim_match_hit in Hm. destruct IH as (Hodd & Hseg & Hdel).
    cbn [split_pieces]. repeat split.
    + cbn [length]. now rewrite Nat.odd_succ, Nat.even_succ.
    + rewrite evens_cons, odds_cons. simpl. exact Hseg.
    + rewrite odds_cons, evens_cons. simpl. now rewrite Hm, Hdel.
Qed.

(** C10. [split_sentences t] has odd length; every element at an even index
    (a segment) holds none of [.], [!], [?], [:]; every element at an odd
    index (a delimiter) is one delimiter character followed by whitespace
    characters only. *)
Theorem split_sentences_shape (t : str) :
  Nat.odd (length (split_sentences ucd t)) = true
  /\ forallb segment_ok (evens (split_sentences ucd t)) = true
  /\ forallb delimiter_ok (odds (split_sentences ucd t)) = true.
Proof.
  unfold split_sentences, re_split.
  apply scanned_delim_shape with (prev := None) (s := t).
  apply finditer_scanned.
Qed.

(** ** [fix_iz] position by position *)

Lemma ignorecase_i c :
  ignorecase 0x69%N c = true <->
  (c = 0x69 \/ c = 0x49 \/ c = 0x130 \/ c = 0x131)%N.
Proof.
  unfold ignorecase. cbn.
  rewrite !orb_true_iff, !N.eqb_eq. intuition congruence.
Qed.

Lemma ignorecase_z c :
  ignorecase 0x7A%N c = true <-> (c = 0x7A \/ c = 0x5A)%N.
Proof.
  unfold ignorecase. cbn.
  rewrite !orb_true_iff, !N.eqb_eq. intuition congruence.
Qed.

Lemma iz_match prev s :
  match_at ucd iz_pattern prev s =
  if iz_here ucd prev s
  then match s with
       | _ :: c2 :: rest => Some (Some c2, rest)
       | _ => None
       end
  else None.
Proof.
  unfold match_at, iz_pattern, iz_here. cbn [run].
  destruct (opt_test is_quote prev); cbn [negb andb]; [now destruct s as [|? [|? ?]]|].
  destruct s as [|c1 [|c2 rest]]; cbn [hd_error opt_test].
  - now destruct (xorb _ _).
  - destruct (xorb _ _); [|reflexivity]. now destruct (ignorecase 105%N c1).
  - destruct (xorb _ (is_word ucd c1)); [|reflexivity]. cbn [andb].
    destruct (ignorecase 105%N c1); [|reflexivity]. cbn [andb].
    destruct (ignorecase 122%N c2); [|reflexivity]. cbn [andb].
    destruct (xorb (is_word ucd c2) _); [|reflexivity]. cbn [andb].
    now destruct (opt_test is_quote (hd_error rest)).
Qed.

Lemma iz_from_cons prev c s q :
  iz_from ucd prev (c :: s) (S q) = iz_from ucd (Some c) s q.
Proof. unfold iz_from. now destruct q. Qed.

Lemma iz_gap prev c s :
  (forall p' rest, match_at ucd iz_pattern prev (c :: s) = Some (p', rest) ->
                   rest = c :: s) ->
  iz_here ucd prev (c :: s) = false.
Proof.
  intros H. destruct (iz_here ucd prev (c :: s)) eqn:E; [|reflexivity].
  exfalso. rewrite iz_match, E in H. destruct s as [|c2 rest].
  - discriminate.
  - specialize (H _ _ eq_refl). apply (f_equal (@length _)) in H.
    simpl in H. lia.
Qed.

Lemma iz_hit prev m rest p' :
  match_at ucd iz_pattern prev (m ++ rest) = Some (p', rest) ->
  exists c1 c2, m = [c1; c2] /\ p' = Some c2
                /\ iz_here ucd prev (c1 :: c2 :: rest) = true.
Proof.
  rewrite iz_match. destruct (iz_here ucd prev (m ++ rest)) eqn:E; [|discriminate].
  destruct (m ++ rest) as [|c1 [|c2 rest']] eqn:Em; try discriminate.
  intros H. injection H as <- <-. exists c1, c2.
  assert (m = [c1; c2]) as ->; [|auto].
  change (c1 :: c2 :: rest') with ([c1; c2] ++ rest') in Em.
  now apply app_inv_tail in Em.
Qed.

(** A match cannot start on the second code point of a match. *)
Lemma iz_here_next prev c1 c2 rest :
  iz_here ucd prev (c1 :: c2 :: rest) = true ->
  iz_here ucd (Some c1) (c2 :: rest) = false.
Proof.
  unfold iz_here. intros H.
  repeat (apply andb_true_iff in H; destruct H as [H ?]).
  assert (Hz : ignorecase 0x7A%N c2 = true) by assumption.
  apply ignorecase_z in Hz.
  assert (Hi : ignorecase 0x69%N c2 = false).
  { destruct (ignorecase 0x69%N c2) eqn:Ei; [|reflexivity].
    apply ignorecase_i in Ei. exfalso.
    destruct Hz as [-> | ->]; destruct Ei as [Ei|[Ei|[Ei|Ei]]]; discriminate. }
  destruct rest as [|c3 rest]; [reflexivity|].
  rewrite Hi. now rewrite !andb_false_r.
Qed.


Lemma scanned_iz_nth prev s ps :
  scanned ucd iz_pattern prev s ps ->
  forall p,
    nth_error (iz_repl ps) p =
    if iz_from ucd prev s p then Some 0x69%N
    else if match p with O => false | S q => iz_from ucd prev s q end
         then Some 0x73%N
         else nth_error s p.
Proof.
  induction 1 as [| prev c s ps Hgap _ IH | prev m rest ps _ Hm _ IH]; intros p.
  - unfold iz_from. destruct p as [|[|p]]; reflexivity.
  - apply iz_gap in Hgap. destruct p as [|q].
    + unfold iz_from. cbn [skipn]. now rewrite Hgap.
    + cbn [iz_repl flat_map app nth_error]. fold (iz_repl ps).
      rewrite IH, iz_from_cons. destruct (iz_from ucd (Some c) s q); [reflexivity|].
      destruct q as [|q'].
      * unfold iz_from at 1. cbn [skipn]. now rewrite Hgap.
      * now rewrite iz_from_cons.
  - apply iz_hit in Hm. destruct Hm as (c1 & c2 & -> & Hp' & Hhere).
    rewrite Hp' in IH. cbn [app].
    pose proof (iz_here_next _ _ _ _ Hhere) as Hnext.
    destruct p as [|[|q]].
    + unfold iz_from. cbn [skipn]. now rewrite Hhere.
    + unfold iz_from. cbn [skipn nth_error]. now rewrite Hnext, Hhere.
    + cbn [iz_repl flat_map app nth_error]. fold (iz_repl ps).
      rewrite IH, !iz_from_cons.
      destruct (iz_from ucd (Some c2) rest q); [reflexivity|].
      destruct q as [|q'].
      * unfold iz_from at 1. cbn [skipn]. now rewrite Hnext.
      * now rewrite iz_from_cons.
Qed.

Lemma fix_iz_nth t p :
  nth_error (fix_iz ucd t) p =
  if iz_at ucd t p then Some 0x69%N
  else if match p with O => false | S q => iz_at ucd t q end
       then Some 0x73%N
       else nth_error t p.
Proof.
  pose proof (scanned_iz_nth (finditer_scanned iz_pattern t) p) as H.
  unfold fix_iz, re_sub. unfold iz_repl in H. rewrite H.
  unfold iz_at, iz_from, char_before. destruct p; reflexivity.
Qed.

Lemma scanned_iz_length prev s ps :
  scanned ucd iz_pattern prev s ps -> length (iz_repl ps) = length s.
Proof.
  induction 1 as [| prev c s ps _ _ IH | prev m rest ps _ Hm _ IH].
  - reflexivity.
  - simpl. now rewrite IH.
  - apply iz_hit in Hm. destruct Hm as (c1 & c2 & -> & _ & _).
    simpl. now rewrite IH.
Qed.

Lemma fix_iz_length t : length (fix_iz ucd t) = length t.
Proof.
  apply (scanned_iz_length (finditer_scanned iz_pattern t)).
Qed.

(** ** Counting whitespace *)

Lemma count_whitespace_from (t : str) : forall acc : int,
  fold_left (fun acc ch => if isspace ch then (acc + 1)%Z else acc) t acc
  = (acc + Z.of_nat (length (filter isspace t)))%Z.
Proof.
  induction t as [|c t IH]; intros acc; simpl.
  - lia.
  - rewrite IH. destruct (isspace c); simpl length; lia.
Qed.

Lemma count_whitespace_filter (t : str) :
  count_whitespace t = Z.of_nat (length (filter isspace t)).
Proof. unfold count_whitespace. now rewrite count_whitespace_from. Qed.

Lemma ignorecase_i_nospace c : ignorecase 0x69%N c = true -> isspace c = false.
Proof.
  intros H. apply ignorecase_i in H.
  destruct H as [->|[->|[->| ->]]]; reflexivity.
Qed.

Lemma ignorecase_z_nospace c : ignorecase 0x7A%N c = true -> isspace c = false.
Proof.
  intros H. apply ignorecase_z in H. destruct H as [->| ->]; reflexivity.
Qed.

Lemma iz_here_chars prev c1 c2 rest :
  iz_here ucd prev (c1 :: c2 :: rest) = true ->
  ignorecase 0x69%N c1 = true /\ ignorecase 0x7A%N c2 = true.
Proof.
  unfold iz_here. intros H.
  repeat (apply andb_true_iff in H; destruct H as [H ?]). auto.
Qed.

Lemma scanned_iz_spaces prev s ps :
  scanned ucd iz_pattern prev s ps ->
  filter isspace (iz_repl ps) = filter isspace s.
Proof.
  induction 1 as [| prev c s ps _ _ IH | prev m rest ps _ Hm _ IH].
  - reflexivity.
  - simpl. fold (iz_repl ps). now rewrite IH.
  - apply iz_hit in Hm. destruct Hm as (c1 & c2 & -> & _ & Hhere).
    apply iz_here_chars in Hhere. destruct Hhere as [H1 H2].
    apply ignorecase_i_nospace in H1. apply ignorecase_z_nospace in H2.
    cbn [iz_repl flat_map app]. fold (iz_repl ps).
    cbn [filter]. rewrite H1, H2, <- IH. reflexivity.
Qed.

(** C9. [fix_iz t] is as long as [t]; it differs from [t] only at the two
    positions of a replaced match of the pattern; hence counting whitespace
    after the correction gives the count before it. *)
Theorem fix_iz_local (t : str) :
  length (fix_iz ucd t) = length t
  /\ (forall p,
        nth_error (fix_iz ucd t) p = nth_error t p
        \/ iz_at ucd t p = true
        \/ exists q, p = S q /\ iz_at ucd t q = true)
  /\ count_whitespace (fix_iz ucd t) = count_whitespace t.
Proof.
  split; [apply fix_iz_length|]. split.
  - intros p. rewrite fix_iz_nth.
    destruct (iz_at ucd t p); [right; left; reflexivity|].
    destruct p as [|q]; [now left|].
    destruct (iz_at ucd t q) eqn:Eq; [|now left].
    right; right. now exists q.
  - rewrite !count_whitespace_filter. f_equal. f_equal.
    apply (scanned_iz_spaces (finditer_scanned iz_pattern t)).
Qed.

(** ** Which positions [fix_iz] rewrites *)

Lemma skipn_nth_error {A} (p : nat) : forall (t : list A),
  skipn p t = match nth_error t p with
              | Some c => c :: skipn (S p) t
              | None => []
              end.
Proof.
  induction p as [|p IH]; intros [|c t]; try reflexivity.
  cbn [skipn nth_error]. rewrite IH. destruct (nth_error t p); reflexivity.
Qed.

Lemma hd_skipn {A} (p : nat) (t : list A) : hd_error (skipn p t) = nth_error t p.
Proof. rewrite skipn_nth_error. now destruct (nth_error t p). Qed.

Lemma iz_at_cond t p :
  iz_at ucd t p =
  iz_cond ucd (char_before t p) (nth_error t p) (nth_error t (S p))
          (nth_error t (S (S p))).
Proof.
  unfold iz_at, iz_here, iz_cond. rewrite skipn_nth_error.
  destruct (nth_error t p) as [c1|]; [|reflexivity].
  rewrite skipn_nth_error.
  destruct (nth_error t (S p)) as [c2|]; [|reflexivity].
  now rewrite hd_skipn.
Qed.

Lemma iz_cond_chars a b c d :
  iz_cond ucd a b c d = true ->
  exists c1 c2, b = Some c1 /\ c = Some c2
    /\ ignorecase 0x69%N c1 = true /\ ignorecase 0x7A%N c2 = true.
Proof.
  unfold iz_cond. destruct b as [c1|]; [|discriminate].
  destruct c as [c2|]; [|discriminate]. intros H.
  repeat (apply andb_true_iff in H; destruct H as [H ?]). eauto 7.
Qed.

Lemma is_word_z c : ignorecase 0x7A%N c = true -> is_word ucd c = true.
Proof. intros H. apply ignorecase_z in H. destruct H as [->| ->]; reflexivity. Qed.

Lemma is_quote_z c : ignorecase 0x7A%N c = true -> is_quote c = false.
Proof. intros H. apply ignorecase_z in H. destruct H as [->| ->]; reflexivity. Qed.

Lemma not_i_z c : ignorecase 0x7A%N c = true -> ignorecase 0x69%N c = false.
Proof. intros H. apply ignorecase_z in H. destruct H as [->| ->]; reflexivity. Qed.

Lemma not_z_i c : ignorecase 0x69%N c = true -> ignorecase 0x7A%N c = false.
Proof.
  intros H. apply ignorecase_i in H.
  destruct H as [->|[->|[->| ->]]]; reflexivity.
Qed.

Lemma nth_error_eq {A} : forall (l1 l2 : list A),
  (forall p, nth_error l1 p = nth_error l2 p) -> l1 = l2.
Proof.
  induction l1 as [|x l1 IH]; intros [|y l2] H.
  - reflexivity.
  - specialize (H 0). discriminate.
  - specialize (H 0). discriminate.
  - pose proof (H 0) as H0. injection H0 as ->. f_equal.
    apply IH. intros p. exact (H (S p)).
Qed.

Lemma fix_iz_fixed t :
  (forall p, p < length t -> iz_at ucd t p = false) -> fix_iz ucd t = t.
Proof.
  intros H. apply nth_error_eq. intros p.
  assert (Hall : forall q, iz_at ucd t q = false).
  { intros q. destruct (Nat.lt_ge_cases q (length t)) as [Hq|Hq]; [now apply H|].
    rewrite iz_at_cond. apply nth_error_None in Hq. rewrite Hq.
    unfold iz_cond. now destruct (nth_error t (S q)). }
  rewrite fix_iz_nth, Hall. destruct p as [|q]; [reflexivity|].
  now rewrite Hall.
Qed.

(** Evaluate the test at a given position of a given text, whatever the
    table says of the code points beyond ASCII. *)
Ltac no_match_here :=
  rewrite iz_at_cond; cbn;
  repeat match goal with
         | |- context [ud_isalnum ?u ?c] => destruct (ud_isalnum u c)
         end;
  reflexivity.

(** C1. At a standalone occurrence of the word iz (any of iz, Iz, iZ, IZ; no
    word character on either side), [fix_iz] writes is exactly when no
    quotation mark (U+0022, U+201C, U+201D) is right before or right after
    it, and leaves the two code points as they are otherwise.  A quoted iZ
    stays verbatim, alone and inside the sample sentence of the homework; an
    iz that whitespace separates from the quotes is corrected. *)
Theorem fix_iz_standalone :
  (forall t p,
     standalone_iz ucd t p = true ->
     (quote_adjacent t p = false <->
      nth_error (fix_iz ucd t) p = Some 0x69%N
      /\ nth_error (fix_iz ucd t) (S p) = Some 0x73%N)
     /\ (quote_adjacent t p = true ->
         nth_error (fix_iz ucd t) p = nth_error t p
         /\ nth_error (fix_iz ucd t) (S p) = nth_error t (S p)))
  /\ fix_iz ucd [0x201C; 0x69; 0x5A; 0x201D]%N = [0x201C; 0x69; 0x5A; 0x201D]%N
  /\ fix_iz ucd (lit "fix" ++ [0x201C; 0x69; 0x5A; 0x201D]%N
                 ++ lit " with correct " ++ [0x201C; 0x69; 0x73; 0x201D]%N)
     = lit "fix" ++ [0x201C; 0x69; 0x5A; 0x201D]%N
       ++ lit " with correct " ++ [0x201C; 0x69; 0x73; 0x201D]%N
  /\ fix_iz ucd [0x22; 0x20; 0x69; 0x7A; 0x20; 0x22]%N
     = [0x22; 0x20; 0x69; 0x73; 0x20; 0x22]%N.
Proof.
  split.
  - intros t p H. unfold standalone_iz in H.
    repeat (apply andb_true_iff in H; destruct H as [H ?]).
    destruct (nth_error t p) as [c1|] eqn:E1; [|discriminate].
    destruct (nth_error t (S p)) as [c2|] eqn:E2; [|discriminate].
    cbn [opt_test] in *.
    assert (Hc1 : c1 = 0x69%N \/ c1 = 0x49%N).
    { apply orb_true_iff in H. now rewrite !N.eqb_eq in H. }
    assert (Hc2 : c2 = 0x7A%N \/ c2 = 0x5A%N).
    { match goal with
      | H' : (_ || _) = true |- _ =>
          apply orb_true_iff in H'; now rewrite !N.eqb_eq in H'
      end. }
    replace (p + 2) with (S (S p)) in * by lia.
    assert (Hat : iz_at ucd t p = negb (quote_adjacent t p)).
    { rewrite iz_at_cond, E1, E2. unfold iz_cond, quote_adjacent.
      replace (p + 2) with (S (S p)) by lia.
      destruct (opt_test (is_word ucd) (char_before t p)); [discriminate|].
      destruct (opt_test (is_word ucd) (nth_error t (S (S p)))); [discriminate|].
      destruct Hc1 as [-> | ->], Hc2 as [-> | ->];
        destruct (opt_test is_quote (char_before t p)),
                 (opt_test is_quote (nth_error t (S (S p)))); reflexivity. }
    assert (Hnext : iz_at ucd t (S p) = false).
    { rewrite iz_at_cond. cbn [char_before]. rewrite E2. unfold iz_cond.
      destruct (nth_error t (S (S p))); [|reflexivity].
      destruct Hc2 as [-> | ->]; cbn; now rewrite ?andb_false_r. }
    assert (Hprev : match p with O => false | S q => iz_at ucd t q end = false).
    { destruct p as [|q]; [reflexivity|]. rewrite iz_at_cond, E1. unfold iz_cond.
      destruct (nth_error t q); [|reflexivity].
      destruct Hc1 as [-> | ->]; cbn; now rewrite ?andb_false_r. }
    rewrite !fix_iz_nth, Hnext, Hprev, Hat.
    destruct (quote_adjacent t p); cbn [negb]; split.
    + split; [discriminate|]. intros [_ Hs]. exfalso.
      rewrite E2 in Hs. destruct Hc2 as [-> | ->]; discriminate.
    + auto.
    + split; auto.
    + discriminate.
  - split; [|split].
    + apply fix_iz_fixed. intros p Hp. cbn [length] in Hp.
      do 4 (destruct p as [|p]; [no_match_here|]). lia.
    + match goal with
      | |- fix_iz ucd ?t = _ =>
          let t' := eval vm_compute in t in change (fix_iz ucd t' = t')
      end.
      apply fix_iz_fixed. intros p Hp. cbn [length] in Hp.
      do 25 (destruct p as [|p]; [no_match_here|]). lia.
    + reflexivity.
Qed.

(** ** Idempotence of [fix_iz] *)

(** Where no match starts, the corrected text has a code point of the same
    kind (quote or not, word character or not) as the original. *)
Lemma fix_iz_same_kind t q :
  iz_at ucd t q = false ->
  opt_test is_quote (nth_error (fix_iz ucd t) q)
    = opt_test is_quote (nth_error t q)
  /\ opt_test (is_word ucd) (nth_error (fix_iz ucd t) q)
    = opt_test (is_word ucd) (nth_error t q).
Proof.
  intros H. rewrite fix_iz_nth, H. destruct q as [|q']; [auto|].
  destruct (iz_at ucd t q') eqn:E; [|auto].
  rewrite iz_at_cond in E. apply iz_cond_chars in E.
  destruct E as (c1 & c2 & _ & -> & _ & Hz). cbn [opt_test].
  rewrite (is_word_z _ Hz), (is_quote_z _ Hz). auto.
Qed.

Lemma fix_iz_no_match t p : iz_at ucd (fix_iz ucd t) p = false.
Proof.
  destruct (iz_at ucd (fix_iz ucd t) p) eqn:E; [exfalso|reflexivity].
  rewrite iz_at_cond in E. pose proof (iz_cond_chars _ _ _ _ E) as Hc.
  destruct Hc as (c1 & c2 & E1 & E2 & Hi & Hz).
  (* the second code point is untouched, so no match of [t] covers it *)
  assert (H2 : iz_at ucd t (S p) = false /\ iz_at ucd t p = false
               /\ nth_error t (S p) = Some c2).
  { rewrite fix_iz_nth in E2.
    destruct (iz_at ucd t (S p)).
    - injection E2 as <-. discriminate.
    - destruct (iz_at ucd t p); [injection E2 as <-; discriminate | auto]. }
  destruct H2 as (Hn1 & Hn0 & T2).
  (* likewise the first *)
  assert (H1 : match p with O => false | S q => iz_at ucd t q end = false
               /\ nth_error t p = Some c1).
  { rewrite fix_iz_nth, Hn0 in E1. destruct p as [|q]; [auto|].
    destruct (iz_at ucd t q); [injection E1 as <-; discriminate | auto]. }
  destruct H1 as (Hp & T1).
  (* so the same test succeeds on [t] *)
  assert (Ht : iz_at ucd t p = true); [|congruence].
  rewrite iz_at_cond, T1, T2. rewrite E1, E2 in E. unfold iz_cond in *.
  assert (Ha : opt_test is_quote (char_before (fix_iz ucd t) p)
               = opt_test is_quote (char_before t p)
               /\ opt_test (is_word ucd) (char_before (fix_iz ucd t) p)
               = opt_test (is_word ucd) (char_before t p)).
  { destruct p as [|q]; [auto|]. apply fix_iz_same_kind. exact Hp. }
  destruct Ha as [Ha1 Ha2]. rewrite Ha1, Ha2 in E.
  rewrite fix_iz_nth, Hn1 in E.
  destruct (iz_at ucd t (S (S p))).
  - exfalso. cbn [opt_test] in E.
    rewrite (is_word_z _ Hz) in E.
    change (is_word ucd 105%N) with true in E. cbn [xorb] in E.
    now rewrite andb_false_r in E.
  - exact E.
Qed.

(** C7. The correction is idempotent. *)
Theorem fix_iz_idempotent (t : str) :
  fix_iz ucd (fix_iz ucd t) = fix_iz ucd t.
Proof.
  apply nth_error_eq. intros p.
  rewrite fix_iz_nth, fix_iz_no_match.
  destruct p as [|q]; [reflexivity|]. now rewrite fix_iz_no_match.
Qed.

(** ** Sentence case *)

Lemma letter_gap prev c s :
  (forall p' rest, match_at ucd letter_pattern prev (c :: s) = Some (p', rest) ->
                   rest = c :: s) ->
  is_letter c = false.
Proof.
  intros H. destruct (is_letter c) eqn:E; [|reflexivity]. exfalso.
  unfold match_at, letter_pattern in H. cbn [run] in H. rewrite E in H.
  specialize (H _ _ eq_refl). apply (f_equal (@length _)) in H.
  simpl in H. lia.
Qed.

Lemma letter_hit prev m rest p' :
  match_at ucd letter_pattern prev (m ++ rest) = Some (p', rest) ->
  exists c, m = [c] /\ is_letter c = true.
Proof.
  unfold match_at, letter_pattern. cbn [run].
  destruct (m ++ rest) as [|c s] eqn:E; [discriminate|].
  destruct (is_letter c) eqn:El; [|discriminate].
  intros H. injection H as _ <-. exists c. split; [|exact El].
  change (c :: s) with ([c] ++ s) in E. now apply app_inv_tail in E.
Qed.

Lemma scanned_letter_first prev s ps :
  scanned ucd letter_pattern prev s ps ->
  first_hit ps = find_index is_letter s.
Proof.
  induction 1 as [| prev c s ps Hgap _ IH | prev m rest ps _ Hm _ IH].
  - reflexivity.
  - apply letter_gap in Hgap. simpl. rewrite Hgap, IH.
    now destruct (find_index is_letter s).
  - apply letter_hit in Hm. destruct Hm as (c & -> & Hc). simpl. now rewrite Hc.
Qed.

Lemma re_search_letter s :
  re_search ucd letter_pattern s = find_index is_letter s.
Proof.
  apply (scanned_letter_first (finditer_scanned letter_pattern s)).
Qed.

Lemma capitalize_first_index letter up (s : str) :
  match find_index letter s with
  | None => capitalize_first letter up s = s
  | Some i =>
      exists c, nth_error s i = Some c /\ letter c = true
        /\ capitalize_first letter up s = firstn i s ++ up c ++ skipn (i + 1) s
  end.
Proof.
  induction s as [|c s IH]; simpl.
  - reflexivity.
  - destruct (letter c) eqn:E.
    + exists c. auto.
    + destruct (find_index letter s) as [i|]; simpl.
      * destruct IH as (c' & Hn & Hl & Hc). exists c'. now rewrite Hc.
      * now rewrite IH.
Qed.

Lemma find_index_none p (s : str) :
  find_index p s = None <-> existsb p s = false.
Proof.
  induction s as [|c s IH]; simpl; [tauto|].
  destruct (p c); simpl; [split; discriminate|].
  destruct (find_index p s); simpl; [|tauto].
  split; [discriminate|]. intros H. apply IH in H. discriminate.
Qed.

Lemma capitalize_first_ext letter up1 up2 (s : str) :
  (forall c, letter c = true -> up1 c = up2 c) ->
  capitalize_first letter up1 s = capitalize_first letter up2 s.
Proof.
  intros H. induction s as [|c s IH]; simpl; [reflexivity|].
  destruct (letter c) eqn:E; [now rewrite H | now rewrite IH].
Qed.

Lemma is_letter_ascii c : is_letter c = true -> is_ascii c = true.
Proof.
  unfold is_letter, is_lower_ascii, is_upper_ascii, in_range, is_ascii.
  rewrite orb_true_iff, !andb_true_iff, !N.leb_le, N.ltb_lt. lia.
Qed.

Lemma upper_char_letter c :
  is_letter c = true -> upper_char ucd c = [ascii_upper c].
Proof. intros H. unfold upper_char. now rewrite (is_letter_ascii _ H). Qed.

Lemma sentence_case_eq (seg : str) :
  sentence_case ucd seg = Some (sentence_case_of ucd is_letter seg).
Proof.
  unfold sentence_case, sentence_case_of. rewrite re_search_letter.
  pose proof (capitalize_first_index is_letter (upper_char ucd)
                                     (str_lower ucd seg)) as H.
  destruct (find_index is_letter (str_lower ucd seg)) as [i|].
  - destruct H as (c & Hn & _ & ->). rewrite Hn. cbn [bind].
    unfold str_upper. cbn [flat_map]. now rewrite app_nil_r.
  - now rewrite H.
Qed.

Lemma mod2_even i : (i mod 2 =? 0) = Nat.even i.
Proof.
  destruct (Nat.even i) eqn:E.
  - apply Nat.even_spec in E. destruct E as [m ->].
    rewrite Nat.mul_comm, Nat.Div0.mod_mul. reflexivity.
  - assert (Ho : Nat.odd i = true) by (unfold Nat.odd; now rewrite E).
    apply Nat.odd_spec in Ho. destruct Ho as [m ->].
    rewrite Nat.add_comm, Nat.mul_comm, Nat.Div0.mod_add. reflexivity.
Qed.

Lemma normalize_loop_eq parts : forall i out,
  normalize_loop ucd i parts out =
  Some (out ++ if Nat.even i
               then alternate (sentence_case_of ucd is_letter) (fun d => d) parts
               else alternate (fun d => d) (sentence_case_of ucd is_letter) parts).
Proof.
  induction parts as [|p ps IH]; intros i out; cbn [normalize_loop].
  - destruct (Nat.even i); now rewrite app_nil_r.
  - rewrite mod2_even, sentence_case_eq. cbn [bind].
    rewrite !IH, Nat.even_succ. unfold Nat.odd.
    destruct (Nat.even i); cbn [negb alternate]; now rewrite <- app_assoc.
Qed.

(** C3, as the code has it.  [sentence_case] puts the segment in lower case
    and then upper-cases in place the first ASCII letter of the lower-cased
    text, skipping whatever comes before it; a lower-cased text without an
    ASCII letter is returned as it is; [normalize_case] does this to the
    elements at even indices and passes the delimiters, at odd indices,
    through unmodified. *)
Theorem sentence_case_ascii :
  (forall seg,
     sentence_case ucd seg =
     Some (capitalize_first is_letter (fun c => [ascii_upper c])
                            (str_lower ucd seg)))
  /\ (forall seg,
        sentence_case ucd seg =
        Some (if existsb is_letter (str_lower ucd seg)
              then sentence_case_of ucd is_letter seg
              else str_lower ucd seg))
  /\ (forall t,
        normalize_case ucd t =
        Some (concat (alternate (sentence_case_of ucd is_letter) (fun d => d)
                                (split_sentences ucd t)))).
Proof.
  split; [|split].
  - intros seg. rewrite sentence_case_eq. f_equal.
    apply capitalize_first_ext. apply upper_char_letter.
  - intros seg. rewrite sentence_case_eq. f_equal.
    destruct (existsb is_letter (str_lower ucd seg)) eqn:E; [reflexivity|].
    apply find_index_none in E. unfold sentence_case_of.
    pose proof (capitalize_first_index is_letter (upper_char ucd)
                                       (str_lower ucd seg)) as H.
    now rewrite E in H.
  - intros t. unfold normalize_case. now rewrite normalize_loop_eq.
Qed.

(** ** The worked example of the specification *)

(** C8. On the text tHis iz your homeWork. the correction gives
    tHis is your homeWork. and the case normalization of that gives
    This is your homework. *)
Theorem homework_example :
  fix_iz ucd (lit "tHis iz your homeWork.") = lit "tHis is your homeWork."
  /\ normalize_case ucd (lit "tHis is your homeWork.")
     = Some (lit "This is your homework.").
Proof. split; vm_compute; reflexivity. Qed.

(** ** The words found by [last_words] *)

Lemma letter_is_word c : is_letter c = true -> is_word ucd c = true.
Proof.
  intros H. unfold is_word. rewrite (is_letter_ascii _ H), H. reflexivity.
Qed.

Lemma take_drop_while p (s : str) : take_while p s ++ drop_while p s = s.
Proof.
  induction s as [|c s IH]; simpl; [reflexivity|].
  destruct (p c); simpl; [now rewrite IH | reflexivity].
Qed.

Lemma take_while_all p (s : str) : forallb p (take_while p s) = true.
Proof.
  induction s as [|c s IH]; simpl; [reflexivity|].
  destruct (p c) eqn:E; simpl; [now rewrite E | reflexivity].
Qed.

(** The greedy run of letters, followed by [\b], after a letter [c0]: the
    whole run or nothing, since inside the run there is no boundary. *)
Lemma star_letters_boundary (r : str) : forall c0,
  is_letter c0 = true ->
  star is_letter (run ucd WordBoundary k_done) (Some c0) r =
  if opt_test (is_word ucd) (hd_error (drop_while is_letter r)) then None
  else Some (after (Some c0) (take_while is_letter r), drop_while is_letter r).
Proof.
  induction r as [|c r IH]; intros c0 H0.
  - cbn. now rewrite (letter_is_word _ H0).
  - cbn [star take_while drop_while]. destruct (is_letter c) eqn:Ec.
    + rewrite (IH c Ec). 
      destruct (opt_test (is_word ucd) (hd_error (drop_while is_letter r))).
      * cbn. now rewrite (letter_is_word _ H0), (letter_is_word _ Ec).
      * reflexivity.
    + cbn. rewrite (letter_is_word _ H0). now destruct (is_word ucd c).
Qed.

Lemma word_match prev s :
  match_at ucd word_pattern prev s =
  match s with
  | c :: r =>
      if xorb (opt_test (is_word ucd) prev) (is_word ucd c) && is_letter c
         && negb (opt_test (is_word ucd) (hd_error (drop_while is_letter r)))
      then Some (after (Some c) (take_while is_letter r), drop_while is_letter r)
      else None
  | [] => None
  end.
Proof.
  unfold match_at. fold k_done.
  change (run ucd word_pattern k_done prev s) with
    (if xorb (opt_test (is_word ucd) prev) (opt_test (is_word ucd) (hd_error s))
     then match s with
          | c :: s' =>
              if is_letter c
              then star is_letter (run ucd WordBoundary k_done) (Some c) s'
              else None
          | [] => None
          end
     else None).
  destruct s as [|c r].
  - now destruct (xorb _ _).
  - cbn [hd_error opt_test].
    destruct (xorb (opt_test (is_word ucd) prev) (is_word ucd c)); [|reflexivity].
    destruct (is_letter c) eqn:Ec; [|reflexivity]. cbn [andb].
    rewrite (star_letters_boundary r _ Ec).
    now destruct (opt_test (is_word ucd) (hd_error (drop_while is_letter r))).
Qed.

Lemma last_letters (w : str) : forall c,
  is_letter c = true -> forallb is_letter w = true ->
  forall d, is_letter (last (c :: w) d) = true.
Proof.
  induction w as [|c' w IH]; intros c Hc Hw d.
  - exact Hc.
  - simpl in Hw. apply andb_true_iff in Hw. destruct Hw as [Hc' Hw].
    change (last (c :: c' :: w) d) with (last (c' :: w) d).
    now apply IH.
Qed.

Lemma after_last (w : str) : forall c d, after (Some c) w = Some (last (c :: w) d).
Proof.
  induction w as [|c' w IH]; intros c d; [reflexivity|].
  rewrite after_cons. change (last (c :: c' :: w) d) with (last (c' :: w) d).
  apply IH.
Qed.

(** Inside a run of letters no word starts. *)
Lemma words_of_skip letter (w : str) : forall c rest,
  letter c = true -> forallb letter w = true ->
  words_of ucd letter (Some c) (w ++ rest)
  = words_of ucd letter (after (Some c) w) rest.
Proof.
  induction w as [|c' w IH]; intros c rest Hc Hw; [reflexivity|].
  simpl in Hw. apply andb_true_iff in Hw. destruct Hw as [Hc' Hw].
  cbn [app words_of opt_test]. rewrite Hc, andb_false_r.
  rewrite after_cons. now apply IH.
Qed.

Lemma scanned_words prev s ps :
  scanned ucd word_pattern prev s ps ->
  hits ps = words_of ucd is_letter prev s.
Proof.
  induction 1 as [| prev c s ps Hgap _ IH | prev m rest ps Hne Hm _ IH].
  - reflexivity.
  - cbn [hits words_of]. rewrite IH.
    destruct (is_letter c && negb (opt_test is_letter prev)) eqn:E1; [|reflexivity].
    apply andb_true_iff in E1. destruct E1 as [Ec _].
    destruct (xorb (opt_test (is_word ucd) prev) (is_word ucd c)
              && xorb (is_word ucd (last (c :: take_while is_letter s) c))
                   (opt_test (is_word ucd) (hd_error (drop_while is_letter s))))
      eqn:E2; [|reflexivity].
    exfalso. apply andb_true_iff in E2. destruct E2 as [Eb Ee].
    rewrite (letter_is_word _ (last_letters _ _ Ec (take_while_all _ s) c)) in Ee.
    destruct (opt_test (is_word ucd) (hd_error (drop_while is_letter s)))
      eqn:Ex; [discriminate|].
    rewrite word_match, Eb, Ec, Ex in Hgap. cbn [andb negb] in Hgap.
    specialize (Hgap _ _ eq_refl).
    pose proof (take_drop_while is_letter s) as Htd.
    apply (f_equal (@length _)) in Htd, Hgap.
    rewrite length_app in Htd. simpl in Hgap. lia.
  - destruct m as [|c w]; [congruence|]. cbn [app] in *.
    rewrite word_match in Hm.
    destruct (xorb (opt_test (is_word ucd) prev) (is_word ucd c)) eqn:Eb;
      [|discriminate].
    destruct (is_letter c) eqn:Ec; [|discriminate].
    destruct (opt_test (is_word ucd) (hd_error (drop_while is_letter (w ++ rest))))
      eqn:Ee; [discriminate|].
    cbn [andb negb] in Hm. injection Hm as Hafter Hrest.
    assert (Hw : w = take_while is_letter (w ++ rest)).
    { pose proof (take_drop_while is_letter (w ++ rest)) as Htd.
      rewrite Hrest in Htd. now apply app_inv_tail in Htd. }
    cbn [hits words_of]. rewrite Ec, <- Hw, Eb, Hrest. cbn [andb].
    assert (Hall : forallb is_letter w = true).
    { rewrite Hw. apply take_while_all. }
    assert (Hp : opt_test is_letter prev = false).
    { destruct prev as [c0|]; [|reflexivity]. cbn [opt_test] in *.
      destruct (is_letter c0) eqn:E0; [|reflexivity].
      rewrite (letter_is_word _ E0), (letter_is_word _ Ec) in Eb. discriminate. }
    rewrite Hp. cbn [negb].
    rewrite (letter_is_word _ (last_letters _ _ Ec Hall c)).
    rewrite Hrest in Ee. rewrite Ee. cbn [xorb andb].
    f_equal. rewrite IH. rewrite after_cons.
    symmetry. now apply words_of_skip.
Qed.

Lemma re_findall_words s :
  re_findall ucd word_pattern s = words_of ucd is_letter None s.
Proof. apply (scanned_words (finditer_scanned word_pattern s)). Qed.

Lemma last_words_loop_eq parts : forall i words,
  last_words_loop ucd i parts words =
  Some (words ++ flat_map (last_word_of ucd is_letter)
                          (if Nat.even i then evens parts else odds parts)).
Proof.
  induction parts as [|p ps IH]; intros i words; cbn [last_words_loop].
  - destruct (Nat.even i); cbn; now rewrite app_nil_r.
  - rewrite mod2_even, re_findall_words, evens_cons, odds_cons.
    destruct (Nat.even i) eqn:Ei.
    + cbn [flat_map]. unfold last_word_of at 1.
      destruct (words_of ucd is_letter None p) as [|t0 l] eqn:Et.
      * rewrite IH, Nat.even_succ. unfold Nat.odd. rewrite Ei. reflexivity.
      * destruct (rev (t0 :: l)) as [|w l'] eqn:Er.
        { apply (f_equal (@length _)) in Er. rewrite length_rev in Er.
          discriminate. }
        unfold last_item. rewrite Er. cbn [nth_error bind].
        rewrite IH, Nat.even_succ. unfold Nat.odd. rewrite Ei.
        cbn [negb]. now rewrite <- app_assoc.
    + rewrite IH, Nat.even_succ. unfold Nat.odd. rewrite Ei. reflexivity.
Qed.

Lemma last_words_eq t :
  last_words ucd t = Some (last_words_of ucd is_letter t).
Proof. unfold last_words. now rewrite last_words_loop_eq. Qed.

(** ** The synthetic sentence *)

Lemma words_of_start letter (s : str) : forall prev,
  Forall (starts_with letter) (words_of ucd letter prev s).
Proof.
  induction s as [|c s IH]; intros prev; cbn [words_of]; [constructor|].
  destruct (letter c) eqn:Ec; cbn [andb]; [|apply IH].
  destruct (negb (opt_test letter prev)); [|apply IH].
  destruct (_ && _); [|apply IH].
  constructor; [exact Ec | apply IH].
Qed.

Lemma last_words_of_start letter t :
  Forall (starts_with letter) (last_words_of ucd letter t).
Proof.
  unfold last_words_of.
  induction (evens (split_sentences ucd t)) as [|seg l IH]; cbn [flat_map].
  - constructor.
  - apply Forall_app. split; [|exact IH].
    unfold last_word_of.
    destruct (rev (words_of ucd letter None seg)) as [|w l'] eqn:Er; constructor;
      [|constructor].
    pose proof (words_of_start letter seg None) as Hall.
    rewrite Forall_forall in Hall. apply Hall. apply in_rev.
    rewrite Er. now left.
Qed.

Lemma join_start sep (w : str) ws c w' :
  w = c :: w' -> exists tl, join sep (w :: ws) = c :: tl.
Proof.
  intros ->. destruct ws as [|w2 ws]; cbn [join]; eexists; reflexivity.
Qed.

Lemma make_sentence_eq words :
  Forall (starts_with is_letter) words ->
  make_sentence_from_last_words ucd words =
  Some (match words with
        | [] => []
        | _ :: _ => sentence_of ucd is_letter words
        end).
Proof.
  intros Hall. destruct words as [|w ws]; [reflexivity|].
  inversion_clear Hall as [|? ? Hw _]. destruct w as [|c w']; [contradiction|].
  simpl in Hw. unfold make_sentence_from_last_words, sentence_of.
  destruct (@join_start [0x20%N] (c :: w') ws c w' eq_refl) as [tl ->].
  cbn [app nth_error bind skipn capitalize_first]. rewrite Hw.
  unfold str_upper. cbn [flat_map]. now rewrite app_nil_r.
Qed.

Lemma normalize_case_eq t :
  normalize_case ucd (fix_iz ucd t) = Some (normalized_of ucd is_letter t).
Proof. unfold normalize_case. now rewrite normalize_loop_eq. Qed.

Lemma process_homework_eq t :
  process_homework ucd t =
  let normalized := normalized_of ucd is_letter t in
  let extra := match last_words_of ucd is_letter normalized with
               | [] => []
               | _ :: _ => sentence_of ucd is_letter
                             (last_words_of ucd is_letter normalized)
               end in
  Some (normalized ++ match extra with
                      | [] => []
                      | _ :: _ => [0x0A; 0x0A]%N ++ extra
                      end,
        count_whitespace t, extra).
Proof.
  unfold process_homework. rewrite normalize_case_eq. cbn [bind].
  rewrite last_words_eq. cbn [bind].
  rewrite make_sentence_eq by apply last_words_of_start. reflexivity.
Qed.

(** C5, as the code has it.  The collected last words are, for each segment
    of the normalized text in order, the last maximal run of ASCII letters
    with a word boundary on both sides, when the segment has one.  When at
    least one word is collected the synthetic sentence is the words joined
    by single spaces, a period appended, the first letter in upper case;
    when none is collected it is empty.  On Hello world. Bye now. the words
    are world and now and the sentence is World now. *)
Theorem last_words_sentence :
  (forall t, last_words ucd t = Some (last_words_of ucd is_letter t))
  /\ (forall t, exists final normalized,
        normalize_case ucd (fix_iz ucd t) = Some normalized
        /\ process_homework ucd t =
           Some (final, count_whitespace t,
                 match last_words_of ucd is_letter normalized with
                 | [] => []
                 | _ :: _ => sentence_of ucd is_letter
                               (last_words_of ucd is_letter normalized)
                 end))
  /\ last_words ucd (lit "Hello world. Bye now.")
     = Some [lit "world"; lit "now"]
  /\ process_homework ucd (lit "Hello world. Bye now.")
     = Some (lit "Hello world. Bye now." ++ [0x0A; 0x0A]%N ++ lit "World now.",
             3%Z, lit "World now.").
Proof.
  split; [exact last_words_eq|]. split; [|split].
  - intros t. rewrite process_homework_eq, normalize_case_eq. cbv zeta.
    eexists _, _. split; reflexivity.
  - vm_compute. reflexivity.
  - vm_compute. reflexivity.
Qed.

(** C6. On the empty text [process_homework] returns the empty final text
    (no blank line, no synthetic sentence), the count 0 and the empty extra
    sentence; on every text it returns a result and raises no error. *)
Theorem process_homework_total :
  process_homework ucd [] = Some ([], 0%Z, [])
  /\ forall t, exists final count extra,
       process_homework ucd t = Some (final, count, extra).
Proof.
  split; [reflexivity|].
  intros t. rewrite process_homework_eq. cbv zeta. eexists _, _, _. reflexivity.
Qed.

(** C4. [count_whitespace] returns the number of code points of the text
    that [str.isspace] classifies as whitespace: space, tab, newline,
    carriage return, no-break space and the other Unicode space separators
    among them; the count that [process_homework] returns is that of its
    input. *)
Theorem count_whitespace_unicode :
  (forall t, count_whitespace t = Z.of_nat (length (filter isspace t)))
  /\ forallb isspace
       [0x20; 0x09; 0x0A; 0x0D; 0xA0; 0x1680; 0x2000; 0x2001; 0x2002; 0x2003;
        0x2004; 0x2005; 0x2006; 0x2007; 0x2008; 0x2009; 0x200A; 0x202F;
        0x205F; 0x3000]%N = true
  /\ forall t, exists final extra,
       process_homework ucd t = Some (final, count_whitespace t, extra).
Proof.
  split; [exact count_whitespace_filter|]. split; [reflexivity|].
  intros t. rewrite process_homework_eq. cbv zeta. eexists _, _. reflexivity.
Qed.

(** * Further properties of the text pipeline *)

(** ** How many parts [split_sentences] returns *)

Lemma is_delim_nospace c : is_delim c = true -> isspace c = false.
Proof.
  unfold is_delim. rewrite !orb_true_iff, !N.eqb_eq.
  intros [[[-> | ->] | ->] | ->]; reflexivity.
Qed.

Lemma isspace_nodelim c : isspace c = true -> is_delim c = false.
Proof.
  intros H. destruct (is_delim c) eqn:E; [|reflexivity].
  apply is_delim_nospace in E. congruence.
Qed.

Lemma count_class_app p (a b : str) :
  count_class p (a ++ b) = count_class p a + count_class p b.
Proof. unfold count_class. now rewrite filter_app, length_app. Qed.

Lemma count_class_none p (s : str) :
  forallb (fun c => negb (p c)) s = true -> count_class p s = 0.
Proof.
  unfold count_class. induction s as [|c s IH]; simpl; [reflexivity|].
  intros H. apply andb_true_iff in H. destruct H as [Hc Hs].
  destruct (p c); [discriminate|]. now apply IH.
Qed.

Lemma delimiter_count d : delimiter_ok d = true -> count_class is_delim d = 1.
Proof.
  destruct d as [|c ws]; [discriminate|]. simpl. intros H.
  apply andb_true_iff in H. destruct H as [Hc Hws].
  change (c :: ws) with ([c] ++ ws). rewrite count_class_app.
  unfold count_class at 1. simpl. rewrite Hc. simpl. f_equal.
  apply count_class_none. rewrite forallb_forall in *. intros x Hx.
  now rewrite (isspace_nodelim _ (Hws x Hx)).
Qed.

Lemma shape_count (l : list str) :
  forall n, length l <= n ->
  Nat.odd (length l) = true ->
  forallb segment_ok (evens l) = true ->
  forallb delimiter_ok (odds l) = true ->
  length l = 2 * count_class is_delim (concat l) + 1.
Proof.
  intros n. revert l. induction n as [|n IH]; intros l Hn Hodd Hseg Hdel.
  - destruct l; [discriminate | simpl in Hn; lia].
  - destruct l as [|seg [|d rest]]; [discriminate| |].
    + simpl in *. rewrite app_nil_r. apply andb_true_iff in Hseg.
      destruct Hseg as [Hseg _]. unfold segment_ok in Hseg.
      now rewrite (count_class_none _ _ Hseg).
    + rewrite evens_cons, odds_cons in Hseg.
      rewrite odds_cons, evens_cons in Hdel.
      cbn [forallb] in Hseg, Hdel.
      apply andb_true_iff in Hseg. destruct Hseg as [Hs Hseg].
      apply andb_true_iff in Hdel. destruct Hdel as [Hd Hdel].
      cbn [length] in Hodd. rewrite Nat.odd_succ, Nat.even_succ in Hodd.
      cbn [concat length]. rewrite !count_class_app.
      unfold segment_ok in Hs.
      rewrite (count_class_none _ _ Hs), (delimiter_count _ Hd).
      rewrite (IH rest); try assumption; [lia | simpl in Hn; lia].
Qed.

Lemma split_concat (t : str) : concat (split_sentences ucd t) = t.
Proof.
  unfold split_sentences, re_split. rewrite concat_split_pieces.
  apply scanned_text with (r := delim_pattern) (prev := None).
  apply finditer_scanned.
Qed.

Lemma split_parts (t : str) :
  Nat.odd (length (split_sentences ucd t)) = true
  /\ forallb segment_ok (evens (split_sentences ucd t)) = true
  /\ forallb delimiter_ok (odds (split_sentences ucd t)) = true.
Proof.
  unfold split_sentences, re_split.
  apply scanned_delim_shape with (prev := None) (s := t).
  apply finditer_scanned.
Qed.

(** X1.  [split_sentences t] returns one delimiter for each delimiter
    character of [t]: twice their number of elements, plus one.  A text
    without [.], [!], [?], [:] comes back as one segment. *)
Theorem split_sentences_length (t : str) :
  length (split_sentences ucd t) = 2 * count_class is_delim t + 1
  /\ (existsb is_delim t = false -> split_sentences ucd t = [t]).
Proof.
  destruct (split_parts t) as (Hodd & Hseg & Hdel).
  pose proof (shape_count (split_sentences ucd t) (Nat.le_refl _) Hodd Hseg Hdel)
    as Hlen.
  rewrite split_concat in Hlen. split; [exact Hlen|].
  intros Hno. assert (Hc : count_class is_delim t = 0).
  { apply count_class_none. clear -Hno.
    induction t as [|c t IH]; [reflexivity|]. simpl in *.
    apply orb_false_iff in Hno. destruct Hno as [-> Hno]. now apply IH. }
  rewrite Hc in Hlen. pose proof (split_concat t) as Hcat.
  destruct (split_sentences ucd t) as [|seg [|d rest]]; try discriminate.
  simpl in Hcat. rewrite app_nil_r in Hcat. now subst.
Qed.

(** ** Splitting again what was split *)

Lemma star_done_eq p (s : str) : forall prev,
  star p k_done prev s = Some (after prev (take_while p s), drop_while p s).
Proof.
  induction s as [|c s IH]; intros prev; simpl; [reflexivity|].
  destruct (p c); [|reflexivity]. now rewrite IH.
Qed.

Lemma delim_match prev s :
  match_at ucd delim_pattern prev s =
  match s with
  | c :: r =>
      if is_delim c
      then Some (after (Some c) (take_while isspace r), drop_while isspace r)
      else None
  | [] => None
  end.
Proof.
  unfold match_at, delim_pattern. cbn [run]. destruct s as [|c r]; [reflexivity|].
  destruct (is_delim c); [|reflexivity]. fold k_done. apply star_done_eq.
Qed.

Lemma drop_while_head p (s : str) :
  opt_test p (hd_error (drop_while p s)) = false.
Proof.
  induction s as [|c s IH]; simpl; [reflexivity|].
  destruct (p c) eqn:E; [exact IH | simpl; exact E].
Qed.

Lemma take_while_stop p (w rest : str) :
  forallb p w = true -> opt_test p (hd_error rest) = false ->
  take_while p (w ++ rest) = w /\ drop_while p (w ++ rest) = rest.
Proof.
  intros Hw Hr. induction w as [|c w IH]; simpl in *.
  - destruct rest as [|x rest]; [auto|]. simpl in *. now rewrite Hr.
  - apply andb_true_iff in Hw. destruct Hw as [Hc Hw]. rewrite Hc.
    destruct (IH Hw) as [-> ->]. auto.
Qed.

(** A derivation of a scan gives the result of [scan]. *)
Lemma scanned_scan r prev s ps :
  scanned ucd r prev s ps ->
  forall fuel, length s <= fuel -> scan ucd r fuel prev s = ps.
Proof.
  induction 1 as [| prev c s ps Hgap _ IH | prev m rest ps Hne Hm _ IH];
    intros fuel Hlen.
  - now destruct fuel.
  - destruct fuel as [|f]; [simpl in Hlen; lia|]. cbn [scan].
    simpl in Hlen.
    destruct (match_at ucd r prev (c :: s)) as [[p' rest]|] eqn:E.
    + rewrite (Hgap _ _ eq_refl), Nat.sub_diag. f_equal. apply IH. lia.
    + f_equal. apply IH. lia.
  - destruct m as [|c m]; [congruence|].
    destruct fuel as [|f]; [simpl in Hlen; lia|].
    cbn [app] in *. cbn [scan]. rewrite Hm.
    assert (Hl : length (c :: m ++ rest) - length rest = S (length m)).
    { cbn [length]. rewrite length_app. lia. }
    rewrite Hl. f_equal.
    + f_equal. change (c :: m ++ rest) with ((c :: m) ++ rest).
      change (S (length m)) with (length (c :: m)).
      now rewrite firstn_app, Nat.sub_diag, firstn_all, app_nil_r.
    + apply IH. cbn [length] in Hlen. rewrite length_app in Hlen. lia.
Qed.

Lemma scanned_finditer r s ps :
  scanned ucd r None s ps -> finditer ucd r s = ps.
Proof. intros H. apply (scanned_scan H). lia. Qed.

(** Scanning for delimiters through a segment and on. *)
Lemma scanned_segment (seg : str) : forall prev rest ps,
  segment_ok seg = true ->
  scanned ucd delim_pattern (after prev seg) rest ps ->
  scanned ucd delim_pattern prev (seg ++ rest) (List.map Gap seg ++ ps).
Proof.
  induction seg as [|c seg IH]; intros prev rest ps Hok Hs; [exact Hs|].
  simpl in Hok. apply andb_true_iff in Hok. destruct Hok as [Hc Hok].
  cbn [app List.map]. apply scanned_gap.
  - intros p' r'. rewrite delim_match. destruct (is_delim c); discriminate.
  - apply IH; assumption.
Qed.

Lemma concat_head_nospace (l : list str) :
  forallb delimiter_ok (odds l) = true ->
  opt_test isspace (hd_error (hd [] l)) = false ->
  opt_test isspace (hd_error (concat l)) = false.
Proof.
  destruct l as [|seg rest]; [reflexivity|]. cbn [hd concat].
  destruct seg as [|c seg]; [|auto]. intros Hdel _. cbn [app].
  destruct rest as [|d rest]; [reflexivity|].
  rewrite odds_cons, evens_cons in Hdel. cbn [forallb] in Hdel.
  apply andb_true_iff in Hdel. destruct Hdel as [Hd _].
  destruct d as [|x ws]; [discriminate|]. simpl in Hd.
  apply andb_true_iff in Hd. destruct Hd as [Hx _].
  cbn. now apply is_delim_nospace.
Qed.

(** A list with the shape of a split, whose delimiters are greedy, scans
    back to itself. *)
Lemma shape_scanned (n : nat) : forall l prev,
  length l <= n ->
  Nat.odd (length l) = true ->
  forallb segment_ok (evens l) = true ->
  forallb delimiter_ok (odds l) = true ->
  greedy l = true ->
  scanned ucd delim_pattern prev (concat l) (pieces_of l)
  /\ split_pieces (pieces_of l) = l.
Proof.
  induction n as [|n IH]; intros l prev Hn Hodd Hseg Hdel Hgr.
  - destruct l; [discriminate | simpl in Hn; lia].
  - destruct l as [|seg [|d rest]]; [discriminate| |].
    + cbn [concat pieces_of]. rewrite !app_nil_r. simpl in Hseg.
      apply andb_true_iff in Hseg. destruct Hseg as [Hs _]. split.
      * rewrite <- (app_nil_r seg) at 1. rewrite <- (app_nil_r (List.map Gap seg)).
        apply scanned_segment; [exact Hs | constructor].
      * clear. induction seg as [|c seg IHs]; [reflexivity|].
        cbn [List.map split_pieces]. now rewrite IHs.
    + rewrite evens_cons, odds_cons in Hseg. rewrite odds_cons, evens_cons in Hdel.
      cbn [forallb] in Hseg, Hdel.
      apply andb_true_iff in Hseg. destruct Hseg as [Hs Hseg].
      apply andb_true_iff in Hdel. destruct Hdel as [Hd Hdel].
      cbn [length] in Hodd. rewrite Nat.odd_succ, Nat.even_succ in Hodd.
      cbn [greedy] in Hgr. apply andb_true_iff in Hgr. destruct Hgr as [Hh Hgr].
      apply negb_true_iff in Hh.
      assert (Hn' : length rest <= n) by (simpl in Hn; lia).
      destruct d as [|x ws]; [discriminate|]. simpl in Hd.
      apply andb_true_iff in Hd. destruct Hd as [Hx Hws].
      pose proof (concat_head_nospace rest Hdel Hh) as Hcat.
      destruct (take_while_stop isspace ws (concat rest) Hws Hcat) as [Htk Hdr].
      destruct (IH rest (after (after prev seg) (x :: ws)) Hn' Hodd Hseg Hdel Hgr)
        as [Hsc Hsp].
      cbn [concat pieces_of]. split.
      * apply scanned_segment; [exact Hs|].
        apply scanned_hit; [discriminate | | exact Hsc].
        rewrite delim_match. cbn [app]. rewrite Hx, Htk, Hdr. reflexivity.
      * rewrite <- Hsp at 2. clear.
        induction seg as [|c seg IHs]; [reflexivity|].
        cbn [List.map app split_pieces]. now rewrite IHs.
Qed.

Lemma split_of_shape (l : list str) :
  Nat.odd (length l) = true ->
  forallb segment_ok (evens l) = true ->
  forallb delimiter_ok (odds l) = true ->
  greedy l = true ->
  split_sentences ucd (concat l) = l.
Proof.
  intros Hodd Hseg Hdel Hgr.
  destruct (@shape_scanned (length l) l None (Nat.le_refl _) Hodd Hseg Hdel Hgr)
    as [Hsc Hsp].
  unfold split_sentences, re_split. now rewrite (scanned_finditer Hsc).
Qed.

Lemma greedy_head (x y : str) (r : list str) : greedy (x :: r) = greedy (y :: r).
Proof. now destruct r. Qed.

Lemma scanned_first_segment r prev s ps :
  scanned ucd r prev s ps ->
  forall c, hd_error (hd [] (split_pieces ps)) = Some c -> hd_error s = Some c.
Proof.
  induction 1 as [| prev c s ps _ _ _ | prev m rest ps _ _ _ _]; intros x Hx.
  - discriminate.
  - cbn [split_pieces] in Hx. destruct (split_pieces ps); exact Hx.
  - discriminate.
Qed.

Lemma scanned_delim_greedy prev s ps :
  scanned ucd delim_pattern prev s ps -> greedy (split_pieces ps) = true.
Proof.
  induction 1 as [| prev c s ps _ _ IH | prev m rest ps _ Hm Hs IH].
  - reflexivity.
  - cbn [split_pieces]. destruct (split_pieces ps) as [|seg l]; [reflexivity|].
    now rewrite (greedy_head (c :: seg) seg).
  - cbn [split_pieces greedy]. rewrite IH, andb_true_r.
    destruct (hd_error (hd [] (split_pieces ps))) as [x|] eqn:Ex; [|reflexivity].
    apply (scanned_first_segment Hs) in Ex.
    rewrite delim_match in Hm. destruct (m ++ rest) as [|c r]; [discriminate|].
    destruct (is_delim c); [|discriminate]. injection Hm as _ Hrest.
    pose proof (drop_while_head isspace r) as Hh.
    rewrite Hrest, Ex in Hh. cbn [opt_test] in *. now rewrite Hh.
Qed.

Lemma split_sentences_greedy t : greedy (split_sentences ucd t) = true.
Proof.
  apply (scanned_delim_greedy (finditer_scanned delim_pattern t)).
Qed.

Lemma length_alternate {A} (f g : A -> A) l : length (alternate f g l) = length l.
Proof.
  revert f g. induction l as [|x l IH]; intros f g; simpl; [reflexivity|].
  now rewrite IH.
Qed.

Lemma evens_alternate {A} (f g : A -> A) (n : nat) : forall l,
  length l <= n ->
  evens (alternate f g l) = List.map f (evens l)
  /\ odds (alternate f g l) = List.map g (odds l).
Proof.
  induction n as [|n IH]; intros l Hn.
  - destruct l; [auto | simpl in Hn; lia].
  - destruct l as [|x [|y l]]; [auto | auto |].
    cbn [alternate]. rewrite ?evens_cons, ?odds_cons, ?evens_cons, ?odds_cons.
    destruct (IH l) as [He Ho]; [simpl in Hn; lia|].
    cbn [List.map]. rewrite He, Ho. auto.
Qed.

(** Rewriting the segments of a split leaves it a split, when the rewriting
    brings in no delimiter character and no leading whitespace. *)
Lemma resplit_alternate (f : str -> str) (l : list str) :
  Nat.odd (length l) = true ->
  forallb segment_ok (evens l) = true ->
  forallb delimiter_ok (odds l) = true ->
  greedy l = true ->
  (forall seg, In seg l -> segment_ok seg = true -> segment_ok (f seg) = true) ->
  (forall seg, In seg l -> opt_test isspace (hd_error seg) = false ->
               opt_test isspace (hd_error (f seg)) = false) ->
  split_sentences ucd (concat (alternate f (fun d => d) l))
  = alternate f (fun d => d) l.
Proof.
  intros Hodd Hseg Hdel Hgr Hf1 Hf2.
  destruct (@evens_alternate _ f (fun d => d) (length l) l (Nat.le_refl _))
    as [He Ho].
  apply split_of_shape.
  - now rewrite length_alternate.
  - rewrite He. rewrite forallb_forall in *. intros x Hx.
    apply in_map_iff in Hx. destruct Hx as (seg & <- & Hin).
    apply Hf1; [|now apply Hseg].
    clear -Hin. revert Hin. generalize (Nat.le_refl (length l)).
    generalize (length l) at 2. intros n. revert l.
    induction n as [|n IH]; intros l Hn Hin.
    + destruct l; [contradiction | simpl in Hn; lia].
    + destruct l as [|x [|y l]]; [contradiction| |].
      * destruct Hin as [<-|[]]. now left.
      * rewrite evens_cons, odds_cons in Hin. destruct Hin as [<-|Hin]; [now left|].
        right; right. apply IH; [simpl in Hn; lia | exact Hin].
  - rewrite Ho. now rewrite map_id.
  - clear He Ho Hodd Hseg Hdel Hf1. revert Hgr Hf2.
    generalize (Nat.le_refl (length l)). generalize (length l) at 2.
    intros n. revert l. induction n as [|n IH]; intros l Hn Hgr Hf2.
    + destruct l; [reflexivity | simpl in Hn; lia].
    + destruct l as [|x [|y l]]; [reflexivity | reflexivity |].
      cbn [alternate greedy] in *. apply andb_true_iff in Hgr.
      destruct Hgr as [Hh Hgr]. apply negb_true_iff in Hh.
      rewrite IH; [| simpl in Hn; lia | exact Hgr
                   | intros seg Hin; apply Hf2; now right; right].
      rewrite andb_true_r. apply negb_true_iff.
      destruct l as [|z l]; [reflexivity|]. cbn [alternate hd] in *.
      apply Hf2; [right; right; now left | exact Hh].
Qed.

(** ** Case normalization keeps the sentences *)

Lemma ascii_lower_nodelim c : is_delim c = false -> is_delim (ascii_lower c) = false.
Proof.
  unfold ascii_lower. destruct (is_upper_ascii c) eqn:E; [|auto]. intros _.
  unfold is_upper_ascii, in_range in E. apply andb_true_iff in E.
  rewrite !N.leb_le in E. unfold is_delim.
  rewrite !orb_false_iff, !N.eqb_neq. lia.
Qed.

Lemma ascii_lower_nospace c : isspace c = false -> isspace (ascii_lower c) = false.
Proof.
  unfold ascii_lower. destruct (is_upper_ascii c) eqn:E; [|auto]. intros _.
  unfold is_upper_ascii, in_range in E. apply andb_true_iff in E.
  rewrite !N.leb_le in E. unfold isspace, in_range.
  rewrite !orb_false_iff, !andb_false_iff, !N.eqb_neq, !N.leb_gt. lia.
Qed.

Lemma ascii_upper_letter c :
  is_letter c = true -> is_upper_ascii (ascii_upper c) = true.
Proof.
  unfold is_letter, ascii_upper. destruct (is_lower_ascii c) eqn:E.
  - intros _. unfold is_lower_ascii, is_upper_ascii, in_range in *.
    apply andb_true_iff in E. rewrite !N.leb_le in E.
    rewrite andb_true_iff, !N.leb_le. lia.
  - now rewrite orb_false_l.
Qed.

Lemma upper_ascii_plain c :
  is_upper_ascii c = true -> is_delim c = false /\ isspace c = false.
Proof.
  unfold is_upper_ascii, in_range. rewrite andb_true_iff, !N.leb_le. intros H.
  unfold is_delim, isspace, in_range.
  rewrite !orb_false_iff, !andb_false_iff, !N.eqb_neq, !N.leb_gt. lia.
Qed.

Lemma lower_segment_ok (s : str) : forall before,
  layout_safe ucd -> segment_ok s = true ->
  segment_ok (lower_from ucd before s) = true.
Proof.
  unfold segment_ok. induction s as [|c s IH]; intros before Hsafe Hok;
    [reflexivity|].
  simpl in Hok. apply andb_true_iff in Hok. destruct Hok as [Hc Hok].
  cbn [lower_from]. rewrite forallb_app, (IH _ Hsafe Hok), andb_true_r.
  destruct (is_ascii c) eqn:Ea.
  - simpl. apply negb_true_iff in Hc. now rewrite (ascii_lower_nodelim _ Hc).
  - now destruct (Hsafe before c s Ea).
Qed.

Lemma lower_head (s : str) before :
  layout_safe ucd -> opt_test isspace (hd_error s) = false ->
  opt_test isspace (hd_error (lower_from ucd before s)) = false.
Proof.
  intros Hsafe. destruct s as [|c s]; [reflexivity|]. cbn [hd_error opt_test].
  intros Hc. cbn [lower_from]. destruct (is_ascii c) eqn:Ea.
  - cbn. now apply ascii_lower_nospace.
  - destruct (Hsafe before c s Ea) as [_ H]. destruct (H Hc) as [Hne Hh].
    destruct (ud_lower ucd before c s); [congruence | exact Hh].
Qed.

Lemma capitalize_segment_ok (s : str) :
  segment_ok s = true ->
  segment_ok (capitalize_first is_letter (upper_char ucd) s) = true.
Proof.
  unfold segment_ok. induction s as [|c s IH]; [reflexivity|].
  simpl. intros H. apply andb_true_iff in H. destruct H as [Hc Hs].
  destruct (is_letter c) eqn:El.
  - rewrite (upper_char_letter _ El). simpl. rewrite Hs, andb_true_r.
    apply negb_true_iff. now apply upper_ascii_plain, ascii_upper_letter.
  - simpl. now rewrite Hc, IH.
Qed.

Lemma capitalize_head (s : str) :
  opt_test isspace (hd_error s) = false ->
  opt_test isspace
    (hd_error (capitalize_first is_letter (upper_char ucd) s)) = false.
Proof.
  destruct s as [|c s]; [reflexivity|]. simpl. intros Hc.
  destruct (is_letter c) eqn:El; [|exact Hc].
  rewrite (upper_char_letter _ El). simpl.
  now apply upper_ascii_plain, ascii_upper_letter.
Qed.

Lemma resplit_normalized t0 :
  layout_safe ucd ->
  split_sentences ucd
    (concat (alternate (sentence_case_of ucd is_letter) (fun d => d)
                       (split_sentences ucd t0)))
  = alternate (sentence_case_of ucd is_letter) (fun d => d)
              (split_sentences ucd t0).
Proof.
  intros Hsafe. destruct (split_parts t0) as (Hodd & Hseg & Hdel).
  apply resplit_alternate; try assumption.
  - apply split_sentences_greedy.
  - intros seg _ Hok. unfold sentence_case_of.
    apply capitalize_segment_ok. now apply lower_segment_ok.
  - intros seg _ Hh. unfold sentence_case_of.
    apply capitalize_head. now apply lower_head.
Qed.

(** X2.  When the lower-case mapping keeps the layout, case normalization
    keeps the sentences: splitting the normalized text gives the parts of
    the text it was made from, each segment in sentence case and each
    delimiter as it was.  So [last_words] reads the sentence-cased
    segments. *)
Theorem normalize_keeps_sentences (t : str) :
  layout_safe ucd ->
  exists normalized,
    normalize_case ucd t = Some normalized
    /\ split_sentences ucd normalized
       = alternate (sentence_case_of ucd is_letter) (fun d => d)
                   (split_sentences ucd t)
    /\ last_words ucd normalized
       = Some (flat_map (last_word_of ucd is_letter)
                 (List.map (sentence_case_of ucd is_letter)
                           (evens (split_sentences ucd t)))).
Proof.
  intros Hsafe. eexists. split; [|split].
  - unfold normalize_case. rewrite normalize_loop_eq. reflexivity.
  - cbn [Nat.even app]. now apply resplit_normalized.
  - cbn [Nat.even app]. rewrite last_words_eq. unfold last_words_of.
    rewrite (resplit_normalized t Hsafe).
    destruct (@evens_alternate _ (sentence_case_of ucd is_letter) (fun d => d)
                (length (split_sentences ucd t)) (split_sentences ucd t)
                (Nat.le_refl _)) as [-> _].
    reflexivity.
Qed.

(** ** The script and the function *)

Lemma script_loop_eq parts : forall i cased lw,
  script_loop ucd i parts cased lw =
  Some (cased ++ (if Nat.even i
                  then alternate (sentence_case_of ucd is_letter) (fun d => d) parts
                  else alternate (fun d => d) (sentence_case_of ucd is_letter) parts),
        lw ++ flat_map (last_word_of ucd is_letter)
                (List.map (sentence_case_of ucd is_letter)
                          (if Nat.even i then evens parts else odds parts))).
Proof.
  induction parts as [|p ps IH]; intros i cased lw; cbn [script_loop].
  - destruct (Nat.even i); cbn; now rewrite !app_nil_r.
  - rewrite mod2_even, evens_cons, odds_cons. destruct (Nat.even i) eqn:Ei.
    + rewrite sentence_case_eq. cbn [bind]. rewrite re_findall_words.
      cbn [List.map flat_map alternate]. unfold last_word_of at 1.
      destruct (words_of ucd is_letter None (sentence_case_of ucd is_letter p))
        as [|t0 l] eqn:Et.
      * rewrite IH, Nat.even_succ. unfold Nat.odd. rewrite Ei. cbn [negb rev app].
        rewrite <- ?app_assoc; reflexivity.
      * destruct (rev (t0 :: l)) as [|w l'] eqn:Er.
        { apply (f_equal (@length _)) in Er. rewrite length_rev in Er.
          discriminate. }
        unfold last_item. rewrite Er. cbn [nth_error bind].
        rewrite IH, Nat.even_succ. unfold Nat.odd. rewrite Ei. cbn [negb].
        rewrite <- ?app_assoc; reflexivity.
    + rewrite IH, Nat.even_succ. unfold Nat.odd. rewrite Ei. cbn [negb alternate].
      rewrite <- ?app_assoc; reflexivity.
Qed.

Lemma sentence_head (lw : list str) :
  Forall (starts_with is_letter) lw -> lw <> [] ->
  exists c tl,
    join [0x20%N] lw ++ [0x2E%N] = c :: tl
    /\ is_letter c = true
    /\ sentence_of ucd is_letter lw = ascii_upper c :: tl.
Proof.
  intros Hall Hne. destruct lw as [|w ws]; [congruence|].
  inversion_clear Hall as [|? ? Hw _]. destruct w as [|c w']; [contradiction|].
  simpl in Hw. unfold sentence_of.
  destruct (@join_start [0x20%N] (c :: w') ws c w' eq_refl) as [tl ->].
  exists c, (tl ++ [0x2E%N]). cbn [app capitalize_first]. rewrite Hw.
  now rewrite (upper_char_letter _ Hw).
Qed.

(** X3.  When the lower-case mapping keeps the layout, the script
    [String_Object.py] prints the whitespace count of [process_homework];
    its final text is that of [process_homework] when a word was collected,
    and when none was it is that text followed by a blank line and a lone
    period. *)
Theorem script_against_function (raw : str) :
  layout_safe ucd ->
  exists final extra,
    process_homework ucd raw = Some (final, count_whitespace raw, extra)
    /\ script ucd raw =
       Some (count_whitespace raw,
             match extra with
             | [] => final ++ [0x0A; 0x0A; 0x2E]%N
             | _ :: _ => final
             end).
Proof.
  intros Hsafe. rewrite process_homework_eq. cbv zeta.
  eexists _, _. split; [reflexivity|].
  unfold script. rewrite script_loop_eq. cbn [bind fst snd Nat.even app].
  fold (fix_iz ucd raw). fold (split_sentences ucd (fix_iz ucd raw)).
  fold (normalized_of ucd is_letter raw).
  assert (Hlw : flat_map (last_word_of ucd is_letter)
                  (List.map (sentence_case_of ucd is_letter)
                            (evens (split_sentences ucd (fix_iz ucd raw))))
                = last_words_of ucd is_letter (normalized_of ucd is_letter raw)).
  { unfold last_words_of, normalized_of.
    rewrite (resplit_normalized (fix_iz ucd raw) Hsafe).
    destruct (@evens_alternate _ (sentence_case_of ucd is_letter) (fun d => d)
                (length (split_sentences ucd (fix_iz ucd raw)))
                (split_sentences ucd (fix_iz ucd raw)) (Nat.le_refl _))
      as [-> _].
    reflexivity. }
  rewrite Hlw.
  pose proof (last_words_of_start is_letter (normalized_of ucd is_letter raw))
    as Hall.
  destruct (last_words_of ucd is_letter (normalized_of ucd is_letter raw))
    as [|w ws] eqn:El.
  - cbn. rewrite ?app_nil_r, <- ?app_assoc. reflexivity.
  - destruct (sentence_head Hall) as (c & tl & Hj & Hc & Hs); [discriminate|].
    rewrite Hj, Hs. cbn [nth_error bind skipn].
    unfold str_upper. cbn [flat_map]. rewrite app_nil_r, (upper_char_letter _ Hc).
    reflexivity.
Qed.

(** ** Case normalization of ASCII text *)

Lemma lower_from_ascii (s : str) : forall before,
  forallb is_ascii s = true ->
  lower_from ucd before s = List.map ascii_lower s.
Proof.
  induction s as [|c s IH]; intros before H; [reflexivity|].
  simpl in H. apply andb_true_iff in H. destruct H as [Hc Hs].
  cbn [lower_from List.map]. now rewrite Hc, IH.
Qed.

Lemma ascii_lower_idem c : ascii_lower (ascii_lower c) = ascii_lower c.
Proof.
  unfold ascii_lower. destruct (is_upper_ascii c) eqn:E; [|now rewrite E].
  unfold is_upper_ascii, in_range in *. apply andb_true_iff in E.
  rewrite !N.leb_le in E.
  destruct ((65 <=? c + 32)%N && (c + 32 <=? 90)%N) eqn:E2; [|reflexivity].
  apply andb_true_iff in E2. rewrite !N.leb_le in E2. lia.
Qed.

Lemma ascii_lower_upper c :
  is_letter c = true -> ascii_lower (ascii_upper c) = ascii_lower c.
Proof.
  unfold is_letter, ascii_upper. destruct (is_lower_ascii c) eqn:E; [|reflexivity].
  intros _. unfold ascii_lower, is_lower_ascii, is_upper_ascii, in_range in *.
  apply andb_true_iff in E. rewrite !N.leb_le in E.
  replace ((65 <=? c - 32)%N && (c - 32 <=? 90)%N) with true
    by (symmetry; rewrite andb_true_iff, !N.leb_le; lia).
  replace ((65 <=? c)%N && (c <=? 90)%N) with false
    by (symmetry; rewrite andb_false_iff, !N.leb_gt; lia).
  lia.
Qed.

Lemma ascii_lower_ascii c : is_ascii c = true -> is_ascii (ascii_lower c) = true.
Proof.
  unfold ascii_lower. destruct (is_upper_ascii c) eqn:E; [|auto]. intros _.
  unfold is_upper_ascii, in_range, is_ascii in *. apply andb_true_iff in E.
  rewrite !N.leb_le in E. rewrite N.ltb_lt. lia.
Qed.

Lemma lower_capitalize (s : str) :
  List.map ascii_lower (capitalize_first is_letter (upper_char ucd) s)
  = List.map ascii_lower s.
Proof.
  induction s as [|c s IH]; [reflexivity|]. simpl.
  destruct (is_letter c) eqn:El.
  - rewrite (upper_char_letter _ El). simpl. now rewrite (ascii_lower_upper _ El).
  - simpl. now rewrite IH.
Qed.

Lemma capitalize_ascii (s : str) :
  forallb is_ascii s = true ->
  forallb is_ascii (capitalize_first is_letter (upper_char ucd) s) = true.
Proof.
  induction s as [|c s IH]; [reflexivity|]. simpl. intros H.
  apply andb_true_iff in H. destruct H as [Hc Hs].
  destruct (is_letter c) eqn:El.
  - rewrite (upper_char_letter _ El). simpl. rewrite Hs, andb_true_r.
    pose proof (ascii_upper_letter _ El) as Hu.
    unfold is_upper_ascii, in_range in Hu. apply andb_true_iff in Hu.
    rewrite !N.leb_le in Hu. unfold is_ascii. rewrite N.ltb_lt. lia.
  - simpl. now rewrite Hc, IH.
Qed.

Lemma map_lower_ascii (s : str) :
  forallb is_ascii s = true -> forallb is_ascii (List.map ascii_lower s) = true.
Proof.
  induction s as [|c s IH]; [reflexivity|]. simpl. intros H.
  apply andb_true_iff in H. destruct H as [Hc Hs].
  now rewrite (ascii_lower_ascii _ Hc), IH.
Qed.

Lemma sentence_case_of_ascii (s : str) :
  forallb is_ascii s = true ->
  sentence_case_of ucd is_letter s
  = capitalize_first is_letter (upper_char ucd) (List.map ascii_lower s)
  /\ forallb is_ascii (sentence_case_of ucd is_letter s) = true
  /\ List.map ascii_lower (sentence_case_of ucd is_letter s)
     = List.map ascii_lower s
  /\ sentence_case_of ucd is_letter (sentence_case_of ucd is_letter s)
     = sentence_case_of ucd is_letter s.
Proof.
  intros H. unfold sentence_case_of, str_lower.
  rewrite (lower_from_ascii s [] H).
  assert (Ha : forallb is_ascii
                 (capitalize_first is_letter (upper_char ucd)
                                   (List.map ascii_lower s)) = true).
  { apply capitalize_ascii. now apply map_lower_ascii. }
  assert (Hl : List.map ascii_lower
                 (capitalize_first is_letter (upper_char ucd)
                                   (List.map ascii_lower s))
               = List.map ascii_lower s).
  { rewrite lower_capitalize, map_map. apply map_ext. apply ascii_lower_idem. }
  repeat split; try assumption.
  now rewrite (lower_from_ascii _ [] Ha), Hl.
Qed.

Lemma forallb_concat {A} (p : A -> bool) (l : list (list A)) :
  forallb p (concat l) = forallb (forallb p) l.
Proof.
  induction l as [|x l IH]; [reflexivity|]. simpl. now rewrite forallb_app, IH.
Qed.

Lemma alternate_ext {A} (l : list A) : forall (f g f' g' : A -> A),
  (forall x, In x l -> f x = f' x) -> (forall x, In x l -> g x = g' x) ->
  alternate f g l = alternate f' g' l.
Proof.
  induction l as [|x l IH]; intros f g f' g' Hf Hg; [reflexivity|].
  cbn [alternate]. rewrite (Hf x) by now left. f_equal.
  apply IH; intros y Hy; [apply Hg | apply Hf]; now right.
Qed.

Lemma alternate_twice {A} (l : list A) : forall (f g : A -> A),
  alternate f g (alternate f g l)
  = alternate (fun x => f (f x)) (fun x => g (g x)) l.
Proof.
  induction l as [|x l IH]; intros f g; [reflexivity|].
  cbn [alternate]. now rewrite IH.
Qed.

Lemma map_lower_alternate (l : list str) : forall (f g : str -> str),
  (forall x, In x l -> List.map ascii_lower (f x) = List.map ascii_lower x) ->
  (forall x, In x l -> List.map ascii_lower (g x) = List.map ascii_lower x) ->
  List.map ascii_lower (concat (alternate f g l))
  = List.map ascii_lower (concat l).
Proof.
  induction l as [|x l IH]; intros f g Hf Hg; [reflexivity|].
  cbn [alternate concat]. rewrite !map_app, (Hf x) by now left. f_equal.
  apply IH; intros y Hy; [apply Hg | apply Hf]; now right.
Qed.

(** X4.  On ASCII text case normalization changes nothing but the case of
    letters (the normalized text, folded to lower case, is the text folded
    to lower case, so length and layout stay), and it is idempotent. *)
Theorem normalize_case_ascii (t : str) :
  forallb is_ascii t = true ->
  exists normalized,
    normalize_case ucd t = Some normalized
    /\ List.map ascii_lower normalized = List.map ascii_lower t
    /\ length normalized = length t
    /\ normalize_case ucd normalized = Some normalized.
Proof.
  intros Hascii.
  destruct (split_parts t) as (Hodd & Hseg & Hdel).
  pose proof (split_concat t) as Hcat.
  assert (Hparts : forall x, In x (split_sentences ucd t) ->
                             forallb is_ascii x = true).
  { rewrite <- Hcat, forallb_concat, forallb_forall in Hascii. exact Hascii. }
  set (sc := sentence_case_of ucd is_letter) in *.
  set (parts := split_sentences ucd t) in *.
  assert (Hlow : List.map ascii_lower (concat (alternate sc (fun d => d) parts))
                 = List.map ascii_lower t).
  { rewrite <- Hcat. apply map_lower_alternate; [|reflexivity].
    intros x Hx. now apply sentence_case_of_ascii, Hparts. }
  assert (Hre : split_sentences ucd (concat (alternate sc (fun d => d) parts))
                = alternate sc (fun d => d) parts).
  { apply resplit_alternate; try assumption.
    - apply split_sentences_greedy.
    - intros seg Hin Hok. unfold sc.
      destruct (sentence_case_of_ascii seg (Hparts _ Hin)) as (-> & _).
      apply capitalize_segment_ok. unfold segment_ok in *.
      rewrite forallb_forall in *. intros x Hx. apply in_map_iff in Hx.
      destruct Hx as (y & <- & Hy). apply negb_true_iff.
      apply ascii_lower_nodelim. apply negb_true_iff. now apply Hok.
    - intros seg Hin Hh. unfold sc.
      destruct (sentence_case_of_ascii seg (Hparts _ Hin)) as (-> & _).
      apply capitalize_head. destruct seg as [|c seg]; [reflexivity|].
      simpl in *. now apply ascii_lower_nospace. }
  exists (concat (alternate sc (fun d => d) parts)). split; [|split; [|split]].
  - unfold normalize_case. fold parts. rewrite normalize_loop_eq. reflexivity.
  - exact Hlow.
  - apply (f_equal (@length _)) in Hlow. now rewrite !length_map in Hlow.
  - unfold normalize_case. rewrite Hre, normalize_loop_eq. cbn [Nat.even app].
    fold sc. rewrite alternate_twice. cbn [bind]. do 2 f_equal.
    apply alternate_ext; [|reflexivity].
    intros x Hx. now apply sentence_case_of_ascii, Hparts.
Qed.

(** ** The shape of the results *)

Lemma words_of_letters (s : str) : forall prev,
  Forall (fun w => w <> [] /\ forallb is_letter w = true)
         (words_of ucd is_letter prev s).
Proof.
  induction s as [|c s IH]; intros prev; cbn [words_of]; [constructor|].
  destruct (is_letter c) eqn:Ec; cbn [andb]; [|apply IH].
  destruct (negb (opt_test is_letter prev)); [|apply IH].
  destruct (_ && _); [|apply IH].
  constructor; [|apply IH]. split; [discriminate|].
  simpl. now rewrite Ec, take_while_all.
Qed.

Lemma last_word_of_letters seg :
  Forall (fun w => w <> [] /\ forallb is_letter w = true)
         (last_word_of ucd is_letter seg)
  /\ length (last_word_of ucd is_letter seg) <= 1.
Proof.
  unfold last_word_of.
  destruct (rev (words_of ucd is_letter None seg)) as [|w l] eqn:Er.
  - split; [constructor | simpl; lia].
  - split; [|simpl; lia]. constructor; [|constructor].
    pose proof (words_of_letters seg None) as Hall.
    rewrite Forall_forall in Hall. apply (Hall w).
    apply (proj2 (in_rev _ w)). rewrite Er. now left.
Qed.

(** X5.  [last_words] collects at most one word for each segment, and every
    word it collects is a non-empty run of ASCII letters. *)
Theorem last_words_are_letters (t : str) :
  exists ws,
    last_words ucd t = Some ws
    /\ Forall (fun w => w <> [] /\ forallb is_letter w = true) ws
    /\ length ws <= length (evens (split_sentences ucd t)).
Proof.
  exists (last_words_of ucd is_letter t). split; [apply last_words_eq|].
  unfold last_words_of.
  induction (evens (split_sentences ucd t)) as [|seg l [IH1 IH2]];
    cbn [flat_map length].
  - split; [constructor | lia].
  - destruct (last_word_of_letters seg) as [H1 H2]. split.
    + apply Forall_app. now split.
    + rewrite length_app. lia.
Qed.

(** X6.  [make_sentence_from_last_words] raises on no list of words; it
    returns the empty string exactly for the empty list, and otherwise a
    string that ends with a period. *)
Theorem make_sentence_any_words (words : list str) :
  exists s,
    make_sentence_from_last_words ucd words = Some s
    /\ (s = [] <-> words = [])
    /\ (words = [] \/ exists body, s = body ++ [0x2E]%N).
Proof.
  destruct words as [|w ws].
  - exists []. repeat split; auto.
  - unfold make_sentence_from_last_words.
    destruct (join [0x20%N] (w :: ws)) as [|c j] eqn:Ej.
    + exists [0x2E%N]. cbn. repeat split; try discriminate.
      right. now exists [].
    + exists (upper_char ucd c ++ j ++ [0x2E%N]).
      cbn [app nth_error bind skipn]. unfold str_upper. cbn [flat_map].
      rewrite app_nil_r. repeat split; try discriminate.
      * intros H. apply app_eq_nil in H. destruct H as [_ H].
        now destruct j.
      * right. exists (upper_char ucd c ++ j). now rewrite app_assoc.
Qed.

(** X7.  The final text of [process_homework] is the normalized text alone
    when no word is collected; otherwise it is the normalized text, a blank
    line, and the extra sentence, which then begins with an upper-case ASCII
    letter and ends with a period. *)
Theorem final_text_shape (t : str) :
  exists final extra normalized,
    process_homework ucd t = Some (final, count_whitespace t, extra)
    /\ normalize_case ucd (fix_iz ucd t) = Some normalized
    /\ ((extra = [] /\ final = normalized
         /\ last_words ucd normalized = Some [])
        \/ (exists c body,
              extra = c :: body ++ [0x2E]%N
              /\ is_upper_ascii c = true
              /\ final = normalized ++ [0x0A; 0x0A]%N ++ extra)).
Proof.
  rewrite process_homework_eq, normalize_case_eq. cbv zeta.
  eexists _, _, _. split; [reflexivity|]. split; [reflexivity|].
  rewrite last_words_eq.
  pose proof (last_words_of_start is_letter (normalized_of ucd is_letter t))
    as Hall.
  destruct (last_words_of ucd is_letter (normalized_of ucd is_letter t))
    as [|w ws] eqn:El.
  - left. now rewrite app_nil_r.
  - right. destruct (sentence_head Hall) as (c & tl & Hj & Hc & Hs);
      [discriminate|].
    rewrite Hs.
    assert (Htl : exists body, tl = body ++ [0x2E%N]).
    { destruct (join [0x20%N] (w :: ws)) as [|c' j] eqn:Ej.
      - exfalso. injection Hj as <- _. discriminate.
      - injection Hj as _ <-. now exists j. }
    destruct Htl as [body ->].
    exists (ascii_upper c), body. repeat split.
    now apply ascii_upper_letter.
Qed.

(** ** When the correction changes a text *)

Lemma iz_at_next t p : iz_at ucd t p = true -> iz_at ucd t (S p) = false.
Proof.
  intros H. rewrite iz_at_cond in H. apply iz_cond_chars in H.
  destruct H as (c1 & c2 & _ & E2 & _ & Hz).
  rewrite iz_at_cond. cbn [char_before]. rewrite E2. unfold iz_cond.
  destruct (nth_error t (S (S p))); [|reflexivity].
  rewrite (not_i_z _ Hz). now rewrite !andb_false_r.
Qed.

(** X13.  [fix_iz] returns its text unchanged exactly when its pattern
    matches at no position of the text. *)
Theorem fix_iz_fixed_point (t : str) :
  fix_iz ucd t = t <-> forall p, iz_at ucd t p = false.
Proof.
  split.
  - intros Heq p. destruct (iz_at ucd t p) eqn:E; [exfalso|reflexivity].
    pose proof (fix_iz_nth t (S p)) as Hn.
    rewrite (iz_at_next _ _ E), E, Heq in Hn.
    rewrite iz_at_cond in E. apply iz_cond_chars in E.
    destruct E as (c1 & c2 & _ & E2 & _ & Hz). rewrite E2 in Hn.
    injection Hn as ->. discriminate.
  - intros H. apply fix_iz_fixed. intros p _. apply H.
Qed.

(** ** Whitespace through the pipeline *)

Lemma scanned_iz_ascii prev s ps :
  scanned ucd iz_pattern prev s ps ->
  forallb is_ascii s = true -> forallb is_ascii (iz_repl ps) = true.
Proof.
  induction 1 as [| prev c s ps _ _ IH | prev m rest ps _ Hm _ IH]; intros Ha.
  - reflexivity.
  - simpl in *. apply andb_true_iff in Ha. destruct Ha as [-> Ha]. now apply IH.
  - apply iz_hit in Hm. destruct Hm as (c1 & c2 & -> & _ & _).
    simpl in *. apply andb_true_iff in Ha. destruct Ha as [_ Ha].
    apply andb_true_iff in Ha. destruct Ha as [_ Ha]. now apply IH.
Qed.

Lemma isspace_ascii_lower c : isspace (ascii_lower c) = isspace c.
Proof.
  unfold ascii_lower. destruct (is_upper_ascii c) eqn:E; [|reflexivity].
  unfold is_upper_ascii, in_range in E. apply andb_true_iff in E.
  rewrite !N.leb_le in E.
  assert (H1 : isspace c = false).
  { unfold isspace, in_range.
    rewrite !orb_false_iff, !andb_false_iff, !N.eqb_neq, !N.leb_gt. lia. }
  rewrite H1. unfold isspace, in_range.
  rewrite !orb_false_iff, !andb_false_iff, !N.eqb_neq, !N.leb_gt. lia.
Qed.

Lemma filter_space_lower (s : str) :
  length (filter isspace (List.map ascii_lower s)) = length (filter isspace s).
Proof.
  induction s as [|c s IH]; [reflexivity|]. simpl.
  rewrite isspace_ascii_lower. destruct (isspace c); simpl; now rewrite IH.
Qed.

(** X14.  On ASCII text the correction and the case normalization keep the
    length and the number of whitespace characters: the count taken from
    the input is also the count of the normalized text. *)
Theorem whitespace_kept_ascii (t : str) :
  forallb is_ascii t = true ->
  exists normalized,
    normalize_case ucd (fix_iz ucd t) = Some normalized
    /\ length normalized = length t
    /\ count_whitespace normalized = count_whitespace t.
Proof.
  intros Hascii.
  assert (Hfix : forallb is_ascii (fix_iz ucd t) = true).
  { apply (scanned_iz_ascii (finditer_scanned iz_pattern t) Hascii). }
  pose proof (split_concat (fix_iz ucd t)) as Hcat.
  assert (Hparts : forall x, In x (split_sentences ucd (fix_iz ucd t)) ->
                             forallb is_ascii x = true).
  { rewrite <- Hcat, forallb_concat, forallb_forall in Hfix. exact Hfix. }
  assert (Hlow : List.map ascii_lower (normalized_of ucd is_letter t)
                 = List.map ascii_lower (fix_iz ucd t)).
  { unfold normalized_of. rewrite <- Hcat at 2.
    apply map_lower_alternate; [|reflexivity].
    intros x Hx. now apply sentence_case_of_ascii, Hparts. }
  exists (normalized_of ucd is_letter t). split; [apply normalize_case_eq|].
  split.
  - apply (f_equal (@length _)) in Hlow. rewrite !length_map in Hlow.
    now rewrite Hlow, fix_iz_length.
  - rewrite !count_whitespace_filter. f_equal.
    rewrite <- filter_space_lower, Hlow, filter_space_lower.
    apply (f_equal (@length _)).
    apply (scanned_iz_spaces (finditer_scanned iz_pattern t)).
Qed.

End Properties.

(** * Concrete texts *)

(** On say iz now the occurrence at position 4 is standalone and no quote
    touches it. *)
Lemma fix_iz_standalone_witness :
  standalone_iz latin1 (lit "say iz now") 4 = true
  /\ ((quote_adjacent (lit "say iz now") 4 = false <->
       nth_error (fix_iz latin1 (lit "say iz now")) 4 = Some 0x69%N
       /\ nth_error (fix_iz latin1 (lit "say iz now")) 5 = Some 0x73%N)
      /\ (quote_adjacent (lit "say iz now") 4 = true ->
          nth_error (fix_iz latin1 (lit "say iz now")) 4
          = nth_error (lit "say iz now") 4
          /\ nth_error (fix_iz latin1 (lit "say iz now")) 5
             = nth_error (lit "say iz now") 5)).
Proof.
  split; [reflexivity|].
  apply (proj1 (fix_iz_standalone latin1)). reflexivity.
Defined.

(** C3 as worded fails.  U+00E9 is alphabetic, yet on the segment made of
    U+00E9 and a, [sentence_case] leaves U+00E9 in lower case and
    upper-cases the a; the first alphabetic character in upper case would
    give U+00C9 and then a. *)
Lemma sentence_case_not_first_alphabetic :
  isalpha latin1 0xE9%N = true
  /\ sentence_case latin1 [0xE9; 0x61]%N = Some [0xE9; 0x41]%N
  /\ sentence_case_of latin1 (isalpha latin1) [0xE9; 0x61]%N = [0xC9; 0x61]%N
  /\ ~ (forall seg,
          sentence_case latin1 seg
          = Some (sentence_case_of latin1 (isalpha latin1) seg)).
Proof.
  split; [reflexivity|]. split; [reflexivity|]. split; [reflexivity|].
  intros H. specialize (H [0xE9; 0x61]%N). discriminate.
Qed.

(** C5 as worded fails.  On the empty text no word is collected and the
    synthetic sentence is empty, not the lone period that joining no words
    and appending a period gives.  On the text b, space, a, U+00E9 the last
    alphabetic word of the normalized segment is a followed by U+00E9, yet
    the word collected is B. *)
Lemma last_words_not_as_worded :
  (process_homework latin1 [] = Some ([], 0%Z, [])
   /\ sentence_of latin1 is_letter (last_words_of latin1 is_letter [])
      = [0x2E]%N)
  /\ (normalize_case latin1 (fix_iz latin1 [0x62; 0x20; 0x61; 0xE9]%N)
      = Some [0x42; 0x20; 0x61; 0xE9]%N
      /\ last_words latin1 [0x42; 0x20; 0x61; 0xE9]%N = Some [[0x42]%N]
      /\ last_words_of latin1 (isalpha latin1) [0x42; 0x20; 0x61; 0xE9]%N
         = [[0x61; 0xE9]%N])
  /\ ~ (forall t, exists final count normalized,
          normalize_case latin1 (fix_iz latin1 t) = Some normalized
          /\ process_homework latin1 t =
             Some (final, count,
                   sentence_of latin1 (isalpha latin1)
                     (last_words_of latin1 (isalpha latin1) normalized))).
Proof.
  split; [split; reflexivity|]. split; [repeat split; reflexivity|].
  intros H. destruct (H []) as (final & count & normalized & Hn & Hp).
  vm_compute in Hn. injection Hn as <-. vm_compute in Hp. discriminate.
Qed.

(** The Latin-1 table keeps the layout. *)
Lemma latin1_layout_safe : layout_safe latin1.
Proof.
  intros before c after Ha. cbn [ud_lower latin1]. unfold latin1_lower.
  unfold is_ascii in Ha. apply N.ltb_ge in Ha.
  assert (Hd : forall x, (128 <= x)%N -> is_delim x = false).
  { intros x Hx. unfold is_delim. rewrite !orb_false_iff, !N.eqb_neq. lia. }
  destruct (in_range 192 214 c || in_range 216 222 c) eqn:E.
  - assert (Hc : (192 <= c <= 222)%N).
    { unfold in_range in E. rewrite orb_true_iff, !andb_true_iff, !N.leb_le in E.
      lia. }
    split.
    + cbn. rewrite Hd by lia. reflexivity.
    + intros _. split; [discriminate|]. cbn. unfold isspace, in_range.
      rewrite !orb_false_iff, !andb_false_iff, !N.eqb_neq, !N.leb_gt. lia.
  - split.
    + cbn. rewrite Hd by lia. reflexivity.
    + intros Hs. split; [discriminate | exact Hs].
Qed.

Lemma normalize_keeps_sentences_witness :
  layout_safe latin1
  /\ exists normalized,
       normalize_case latin1 (lit "one two. three") = Some normalized
       /\ split_sentences latin1 normalized
          = alternate (sentence_case_of latin1 is_letter) (fun d => d)
                      (split_sentences latin1 (lit "one two. three"))
       /\ last_words latin1 normalized
          = Some (flat_map (last_word_of latin1 is_letter)
                    (List.map (sentence_case_of latin1 is_letter)
                       (evens (split_sentences latin1 (lit "one two. three"))))).
Proof.
  split; [exact latin1_layout_safe|].
  exact (@normalize_keeps_sentences latin1 (lit "one two. three")
           latin1_layout_safe).
Defined.

Lemma script_against_function_witness :
  layout_safe latin1
  /\ exists final extra,
       process_homework latin1 (lit "one two. three")
       = Some (final, count_whitespace (lit "one two. three"), extra)
       /\ script latin1 (lit "one two. three") =
          Some (count_whitespace (lit "one two. three"),
                match extra with
                | [] => final ++ [0x0A; 0x0A; 0x2E]%N
                | _ :: _ => final
                end).
Proof.
  split; [exact latin1_layout_safe|].
  exact (@script_against_function latin1 (lit "one two. three")
           latin1_layout_safe).
Defined.

Lemma normalize_case_ascii_witness :
  forallb is_ascii (lit "one TWO. three") = true
  /\ exists normalized,
       normalize_case latin1 (lit "one TWO. three") = Some normalized
       /\ List.map ascii_lower normalized
          = List.map ascii_lower (lit "one TWO. three")
       /\ length normalized = length (lit "one TWO. three")
       /\ normalize_case latin1 normalized = Some normalized.
Proof.
  split; [reflexivity|].
  exact (@normalize_case_ascii latin1 (lit "one TWO. three") eq_refl).
Defined.

Lemma whitespace_kept_ascii_witness :
  forallb is_ascii (lit "it iz one. two") = true
  /\ exists normalized,
       normalize_case latin1 (fix_iz latin1 (lit "it iz one. two"))
       = Some normalized
       /\ length normalized = length (lit "it iz one. two")
       /\ count_whitespace normalized
          = count_whitespace (lit "it iz one. two").
Proof.
  split; [reflexivity|].
  exact (@whitespace_kept_ascii latin1 (lit "it iz one. two") eq_refl).
Defined.

(** * Properties of the merge *)

Local Open Scope nat_scope.

Lemma str_eqb_eq (a b : str) : str_eqb a b = true <-> a = b.
Proof.
  revert b. induction a as [|x a IH]; intros [|y b]; simpl;
    try (split; [discriminate | discriminate]); [tauto|].
  rewrite andb_true_iff, N.eqb_eq, IH. split.
  - intros [-> ->]. reflexivity.
  - intros H. injection H as -> ->. auto.
Qed.

Lemma str_eqb_refl (a : str) : str_eqb a a = true.
Proof. now apply str_eqb_eq. Qed.

Lemma str_eqb_neq (a b : str) : str_eqb a b = false <-> a <> b.
Proof.
  rewrite <- str_eqb_eq. destruct (str_eqb a b); intuition congruence.
Qed.

Lemma dict_get_set {V} (k k' : str) (v : V) (d : dict V) :
  dict_get k (dict_set k' v d)
  = if str_eqb k k' then Some v else dict_get k d.
Proof.
  induction d as [|[k0 v0] d IH]; simpl.
  - reflexivity.
  - destruct (str_eqb k' k0) eqn:E0; simpl.
    + apply str_eqb_eq in E0. subst k0.
      destruct (str_eqb k k'); reflexivity.
    + rewrite IH. destruct (str_eqb k k0) eqn:E1; [|reflexivity].
      apply str_eqb_eq in E1. subst k0.
      destruct (str_eqb k k') eqn:E2; [|reflexivity].
      apply str_eqb_eq in E2. subst k'. rewrite str_eqb_refl in E0. discriminate.
Qed.

Lemma dict_get_in {V} (k : str) (d : dict V) :
  dict_get k d <> None <-> In k (List.map fst d).
Proof.
  induction d as [|[k0 v0] d IH]; simpl; [tauto|].
  destruct (str_eqb k k0) eqn:E.
  - apply str_eqb_eq in E. subst. split; [auto | discriminate].
  - apply str_eqb_neq in E. rewrite IH. split; [auto|].
    intros [H|H]; [congruence | exact H].
Qed.

Lemma dict_get_none {V} (k : str) (d : dict V) :
  dict_get k d = None <-> ~ In k (List.map fst d).
Proof.
  rewrite <- dict_get_in. destruct (dict_get k d); intuition congruence.
Qed.

(** ** The two merges agree *)

Lemma rules_fold idx (d : dict int) : forall best counts,
  fold_left (rules_step idx) d (best, counts)
  = (fold_left (winners_step idx) d best,
     fold_left count_step (List.map fst d) counts).
Proof.
  induction d as [|kv d IH]; intros best counts; [reflexivity|].
  cbn [fold_left List.map]. cbn [rules_step]. apply IH.
Qed.

Lemma rules_loop_split (dicts : list (dict int)) : forall idx best counts,
  rules_loop idx dicts (best, counts)
  = (winners_loop idx dicts best, count_loop dicts counts).
Proof.
  induction dicts as [|d ds IH]; intros idx best counts; [reflexivity|].
  cbn [rules_loop winners_loop]. rewrite rules_fold, IH. reflexivity.
Qed.

Lemma count_step_get (counts : dict int) (k k' : str) :
  dict_get k' (count_step counts k)
  = if str_eqb k' k
    then Some (match dict_get k counts with Some n => n | None => 0 end + 1)%Z
    else dict_get k' counts.
Proof. unfold count_step. apply dict_get_set. Qed.

Lemma winners_step_get idx (best : dict (int * nat)) (k : str) (v : int) k' :
  str_eqb k' k = false ->
  dict_get k' (winners_step idx best (k, v)) = dict_get k' best.
Proof.
  intros E. unfold winners_step. destruct (dict_get k best) as [[b i]|].
  - destruct (v >? b)%Z; [|reflexivity]. now rewrite dict_get_set, E.
  - now rewrite dict_get_set, E.
Qed.

Lemma counted_step idx best counts (kv : str * int) :
  counted best counts ->
  counted (winners_step idx best kv) (count_step counts (fst kv)).
Proof.
  destruct kv as [k v]. intros [H1 H2]. cbn [fst].
  assert (Hk : (1 <= match dict_get k counts with Some n => n | None => 0 end + 1)%Z).
  { destruct (dict_get k counts) as [n|] eqn:E; [|lia].
    specialize (H2 _ _ E). lia. }
  split.
  - intros k' Hget. rewrite count_step_get. destruct (str_eqb k' k) eqn:E.
    + eexists. split; [reflexivity | exact Hk].
    + rewrite winners_step_get in Hget by exact E. now apply H1.
  - intros k' n. rewrite count_step_get. destruct (str_eqb k' k).
    + intros H. injection H as <-. exact Hk.
    + apply H2.
Qed.

Lemma counted_fold idx (d : dict int) : forall best counts,
  counted best counts ->
  counted (fold_left (winners_step idx) d best)
          (fold_left count_step (List.map fst d) counts).
Proof.
  induction d as [|kv d IH]; intros best counts H; [exact H|].
  cbn [fold_left List.map]. apply IH. now apply counted_step.
Qed.

Lemma counted_loop (dicts : list (dict int)) : forall idx best counts,
  counted best counts ->
  counted (winners_loop idx dicts best) (count_loop dicts counts).
Proof.
  induction dicts as [|d ds IH]; intros idx best counts H; [exact H|].
  cbn [winners_loop]. unfold count_loop. cbn [fold_left].
  apply IH. now apply counted_fold.
Qed.

Lemma counted_nil : counted [] [].
Proof. split; [intros k H; now elim H | discriminate]. Qed.

Lemma dict_in_get {V} (k : str) (x : V) (d : dict V) :
  In (k, x) d -> dict_get k d <> None.
Proof.
  intros H. apply dict_get_in. apply in_map_iff. now exists (k, x).
Qed.

Lemma result_loop_ext (r1 r2 : int -> bool) (counts : dict int)
  (items : list (str * (int * nat))) :
  (forall k x, In (k, x) items ->
     exists n, dict_get k counts = Some n /\ r1 n = r2 n) ->
  forall res,
    result_loop r1 items counts res = result_loop r2 items counts res
    /\ exists r, result_loop r1 items counts res = Some r.
Proof.
  induction items as [|[k [val idx]] items IH]; intros H res.
  - split; [reflexivity | now exists res].
  - cbn [result_loop]. destruct (H k (val, idx)) as (n & -> & Hr); [now left|].
    cbn [bind]. rewrite Hr. apply IH. intros k' x Hin. apply (H k' x). now right.
Qed.

(** X8.  [merge_with_rules] and [merge_by_max_with_index] return the same
    dict, with its entries in the same order, on every list of dicts, and
    neither raises a [KeyError]. *)
Theorem merge_implementations_agree (dicts : list (dict int)) :
  merge_with_rules dicts = merge_by_max_with_index dicts
  /\ exists result, merge_by_max_with_index dicts = Some result.
Proof.
  unfold merge_with_rules, merge_by_max_with_index.
  rewrite rules_loop_split.
  pose proof (counted_loop dicts 1 counted_nil) as [Hc _].
  assert (H : forall k x, In (k, x) (winners_loop 1 dicts []) ->
            exists n, dict_get k (count_loop dicts []) = Some n
                      /\ negb (n =? 1)%Z = (n >? 1)%Z).
  { intros k x Hin. destruct (Hc k (dict_in_get _ _ _ Hin)) as (n & Hn & Hle).
    exists n. split; [exact Hn|].
    destruct (Z.eqb_spec n 1), (Z.gtb_spec n 1); simpl; try reflexivity; lia. }
  destruct (result_loop_ext _ _ _ _ H []) as [Heq [r Hr]]. split.
  - exact Heq.
  - rewrite <- Heq. now exists r.
Qed.

(** ** What the merge holds for a key *)

Lemma winners_step_same idx (w : dict (int * nat)) (k : str) (v : int) :
  dict_get k (winners_step idx w (k, v)) = best_step (dict_get k w) (idx, v).
Proof.
  unfold winners_step, best_step. cbn [fst snd].
  destruct (dict_get k w) as [[b i]|] eqn:E.
  - destruct (v >? b)%Z; [|exact E]. now rewrite dict_get_set, str_eqb_refl.
  - now rewrite dict_get_set, str_eqb_refl.
Qed.

Lemma winners_fold_get idx (k : str) (d : dict int) : forall w,
  NoDup (List.map fst d) ->
  dict_get k (fold_left (winners_step idx) d w)
  = match dict_get k d with
    | Some v => best_step (dict_get k w) (idx, v)
    | None => dict_get k w
    end.
Proof.
  induction d as [|[k0 v0] d IH]; intros w Hnd; [reflexivity|].
  cbn [List.map fst] in Hnd. inversion_clear Hnd as [|? ? Hnot Hnd'].
  cbn [fold_left dict_get]. rewrite (IH _ Hnd').
  destruct (str_eqb k k0) eqn:E.
  - apply str_eqb_eq in E. subst k0.
    apply dict_get_none in Hnot. rewrite Hnot. apply winners_step_same.
  - rewrite winners_step_get by exact E. reflexivity.
Qed.

Lemma winners_loop_get (k : str) (dicts : list (dict int)) : forall idx w,
  well_formed dicts ->
  dict_get k (winners_loop idx dicts w)
  = fold_left best_step (occurrences k idx dicts) (dict_get k w).
Proof.
  induction dicts as [|d ds IH]; intros idx w Hwf; [reflexivity|].
  cbn [winners_loop occurrences]. rewrite fold_left_app.
  rewrite IH by (intros d' Hd'; apply Hwf; now right).
  rewrite winners_fold_get by (apply Hwf; now left).
  destruct (dict_get k d); reflexivity.
Qed.

Lemma count_fold_get (k : str) (keys : list str) : forall counts,
  NoDup keys ->
  dict_get k (fold_left count_step keys counts)
  = if existsb (str_eqb k) keys
    then Some (match dict_get k counts with Some n => n | None => 0 end + 1)%Z
    else dict_get k counts.
Proof.
  induction keys as [|k0 keys IH]; intros counts Hnd; [reflexivity|].
  inversion_clear Hnd as [|? ? Hnot Hnd'].
  cbn [fold_left existsb]. rewrite (IH _ Hnd'), count_step_get.
  destruct (str_eqb k k0) eqn:E; cbn [orb].
  - apply str_eqb_eq in E. subst k0.
    replace (existsb (str_eqb k) keys) with false; [reflexivity|].
    symmetry. apply not_true_is_false. intros H. apply existsb_exists in H.
    destruct H as (x & Hx & Ex). apply str_eqb_eq in Ex. now subst.
  - reflexivity.
Qed.

Lemma existsb_keys {V} (k : str) (d : dict V) :
  existsb (str_eqb k) (List.map fst d)
  = match dict_get k d with Some _ => true | None => false end.
Proof.
  induction d as [|[k0 v0] d IH]; [reflexivity|]. simpl.
  destruct (str_eqb k k0); [reflexivity | exact IH].
Qed.

Lemma count_loop_get (k : str) (dicts : list (dict int)) : forall idx counts,
  well_formed dicts ->
  dict_get k (count_loop dicts counts)
  = match occurrences k idx dicts with
    | [] => dict_get k counts
    | _ :: _ =>
        Some (match dict_get k counts with Some n => n | None => 0 end
              + Z.of_nat (length (occurrences k idx dicts)))%Z
    end.
Proof.
  unfold count_loop.
  induction dicts as [|d ds IH]; intros idx counts Hwf; [reflexivity|].
  cbn [fold_left occurrences].
  rewrite (IH (S idx)) by (intros d' Hd'; apply Hwf; now right).
  rewrite count_fold_get by (apply Hwf; now left). rewrite existsb_keys.
  destruct (dict_get k d) as [v|]; cbn [app]; [|reflexivity].
  destruct (occurrences k (S idx) ds) as [|o l]; cbn [length]; f_equal; lia.
Qed.

(** The best value of a key: the first of the largest. *)
Lemma best_fold (occ : list (nat * int)) : forall acc m i,
  fold_left best_step occ acc = Some (m, i) ->
  (acc = Some (m, i) /\ forall j v, In (j, v) occ -> (v <= m)%Z)
  \/ (exists pre post,
        occ = pre ++ (i, m) :: post
        /\ (forall j v, In (j, v) pre -> (v < m)%Z)
        /\ (forall j v, In (j, v) post -> (v <= m)%Z)
        /\ match acc with Some (b, _) => (b < m)%Z | None => True end).
Proof.
  induction occ as [|[j0 v0] occ IH]; intros acc m i H.
  - left. split; [exact H | contradiction].
  - cbn [fold_left] in H. apply IH in H.
    destruct H as [[Hacc Hall] | (pre & post & -> & Hpre & Hpost & Hb)].
    + unfold best_step in Hacc. cbn [fst snd] in Hacc.
      destruct acc as [[b ib]|].
      * destruct (Z.gtb_spec v0 b) as [Hgt|Hle].
        -- injection Hacc as <- <-. right. exists [], occ.
           repeat split; [contradiction | exact Hall | exact Hgt].
        -- injection Hacc as <- <-. left. split; [reflexivity|].
           intros j v [Hin|Hin]; [injection Hin as <- <-; exact Hle | eauto].
      * injection Hacc as <- <-. right. exists [], occ.
        repeat split; [contradiction | exact Hall].
    + right. exists ((j0, v0) :: pre), post.
      unfold best_step in Hb. cbn [fst snd] in Hb.
      destruct acc as [[b ib]|].
      * destruct (Z.gtb_spec v0 b) as [Hgt|Hle].
        -- repeat split; [| exact Hpost | lia].
           intros j v [Hin|Hin]; [injection Hin as <- <-; exact Hb | eauto].
        -- repeat split; [| exact Hpost | exact Hb].
           intros j v [Hin|Hin]; [injection Hin as <- <-; lia | eauto].
      * repeat split; [| exact Hpost].
        intros j v [Hin|Hin]; [injection Hin as <- <-; exact Hb | eauto].
Qed.

(** The first of the largest is what the fold finds. *)
Lemma best_fold_first (pre post : list (nat * int)) (i : nat) (m : int) :
  (forall j v, In (j, v) pre -> (v < m)%Z) ->
  (forall j v, In (j, v) post -> (v <= m)%Z) ->
  fold_left best_step (pre ++ (i, m) :: post) None = Some (m, i).
Proof.
  intros Hpre Hpost. rewrite fold_left_app. cbn [fold_left].
  assert (H1 : best_step (fold_left best_step pre None) (i, m) = Some (m, i)).
  { destruct (fold_left best_step pre None) as [[b ib]|] eqn:E; [|reflexivity].
    unfold best_step. cbn [fst snd].
    apply best_fold in E.
    destruct E as [[E _] | (p1 & p2 & -> & _ & _ & _)]; [discriminate|].
    assert (Hb : (b < m)%Z) by (apply (Hpre ib); apply in_or_app; right; now left).
    destruct (Z.gtb_spec m b); [reflexivity | lia]. }
  rewrite H1. clear H1 Hpre.
  induction post as [|[j v] post IH]; [reflexivity|].
  cbn [fold_left].
  assert (Hv : (v <= m)%Z) by (apply (Hpost j); now left).
  replace (best_step (Some (m, i)) (j, v)) with (Some (m, i))
    by (unfold best_step; cbn [fst snd]; destruct (Z.gtb_spec v m);
        [lia | reflexivity]).
  apply IH. intros j' v' Hin. apply (Hpost j'). now right.
Qed.

Lemma dict_set_nodup {V} (k : str) (v : V) (d : dict V) :
  NoDup (List.map fst d) -> NoDup (List.map fst (dict_set k v d)).
Proof.
  induction d as [|[k0 v0] d IH]; intros Hnd.
  - simpl. constructor; [intros [] | constructor].
  - cbn [List.map fst] in Hnd. inversion_clear Hnd as [|? ? Hnot Hnd'].
    cbn [dict_set]. destruct (str_eqb k k0) eqn:E.
    + cbn [List.map fst]. now constructor.
    + cbn [List.map fst]. constructor; [|now apply IH].
      intros Hin. apply dict_get_in in Hin. rewrite dict_get_set in Hin.
      destruct (str_eqb k0 k) eqn:E2.
      * apply str_eqb_eq in E2. subst. rewrite str_eqb_refl in E. discriminate.
      * apply dict_get_in in Hin. contradiction.
Qed.

Lemma winners_loop_nodup (dicts : list (dict int)) : forall idx w,
  NoDup (List.map fst w) -> NoDup (List.map fst (winners_loop idx dicts w)).
Proof.
  induction dicts as [|d ds IH]; intros idx w Hnd; [exact Hnd|].
  cbn [winners_loop]. apply IH. revert w Hnd.
  induction d as [|[k v] d IHd]; intros w Hnd; [exact Hnd|].
  cbn [fold_left]. apply IHd. unfold winners_step.
  destruct (dict_get k w) as [[b ib]|].
  - destruct (v >? b)%Z; [now apply dict_set_nodup | exact Hnd].
  - now apply dict_set_nodup.
Qed.

Lemma dict_get_some_in {V} (k : str) (x : V) (d : dict V) :
  dict_get k d = Some x -> In (k, x) d.
Proof.
  induction d as [|[k0 v0] d IH]; [discriminate|]. simpl.
  destruct (str_eqb k k0) eqn:E.
  - apply str_eqb_eq in E. subst. intros H. injection H as ->. now left.
  - intros H. right. now apply IH.
Qed.

Lemma dict_in_get_some {V} (k : str) (x : V) (d : dict V) :
  NoDup (List.map fst d) -> In (k, x) d -> dict_get k d = Some x.
Proof.
  induction d as [|[k0 v0] d IH]; intros Hnd Hin; [contradiction|].
  cbn [List.map fst] in Hnd. inversion_clear Hnd as [|? ? Hnot Hnd'].
  simpl. destruct Hin as [Hin|Hin].
  - injection Hin as -> ->. now rewrite str_eqb_refl.
  - destruct (str_eqb k k0) eqn:E; [|now apply IH].
    apply str_eqb_eq in E. subst. exfalso. apply Hnot.
    apply in_map_iff. now exists (k0, x).
Qed.

Lemma occurrences_key (k : str) (dicts : list (dict int)) : forall idx,
  occurrences k idx dicts <> [] ->
  exists d, In d dicts /\ In k (List.map fst d).
Proof.
  induction dicts as [|d ds IH]; intros idx H; [now elim H|].
  cbn [occurrences] in H. destruct (dict_get k d) as [v|] eqn:E.
  - exists d. split; [now left|]. apply dict_get_in. congruence.
  - destruct (IH (S idx) H) as (d' & Hd' & Hk). exists d'. split; [now right | exact Hk].
Qed.

Lemma winners_key (k : str) (dicts : list (dict int)) :
  well_formed dicts ->
  In k (List.map fst (winners_loop 1 dicts [])) ->
  exists d, In d dicts /\ In k (List.map fst d).
Proof.
  intros Hwf Hin. apply dict_get_in in Hin.
  rewrite winners_loop_get in Hin by exact Hwf.
  apply occurrences_key with (idx := 1). intros E. rewrite E in Hin. now apply Hin.
Qed.

Lemma winners_counted (dicts : list (dict int)) (k : str) (x : int * nat) :
  In (k, x) (winners_loop 1 dicts []) ->
  exists n, dict_get k (count_loop dicts []) = Some n /\ (1 <= n)%Z.
Proof.
  intros Hin. pose proof (counted_loop dicts 1 counted_nil) as [Hc _].
  apply Hc. eapply dict_in_get. exact Hin.
Qed.

Lemma result_loop_keep (renamed : int -> bool) (counts : dict int) (nk : str)
  (items : list (str * (int * nat))) : forall res R,
  result_loop renamed items counts res = Some R ->
  (forall k val idx c, In (k, (val, idx)) items ->
     dict_get k counts = Some c -> stored_key renamed c k idx <> nk) ->
  dict_get nk R = dict_get nk res.
Proof.
  induction items as [|[k [val idx]] items IH]; intros res R HR Hne.
  - injection HR as <-. reflexivity.
  - cbn [result_loop] in HR. destruct (dict_get k counts) as [c|] eqn:Ec;
      [|discriminate].
    cbn [bind] in HR.
    assert (Hrest : forall k' val' idx' c', In (k', (val', idx')) items ->
              dict_get k' counts = Some c' -> stored_key renamed c' k' idx' <> nk).
    { intros k' val' idx' c' Hin. apply (Hne k' val' idx' c'). now right. }
    rewrite (IH _ _ HR Hrest), dict_get_set.
    destruct (str_eqb nk (if renamed c then indexed_key k idx else k)) eqn:E;
      [|reflexivity].
    apply str_eqb_eq in E. exfalso.
    apply (Hne k val idx c); [now left | exact Ec | now rewrite E].
Qed.

Lemma result_loop_get (renamed : int -> bool) (counts : dict int)
  (items : list (str * (int * nat))) : forall res R,
  result_loop renamed items counts res = Some R ->
  NoDup (List.map fst items) ->
  (forall k1 v1 i1 c1 k2 v2 i2 c2,
     In (k1, (v1, i1)) items -> In (k2, (v2, i2)) items ->
     dict_get k1 counts = Some c1 -> dict_get k2 counts = Some c2 ->
     stored_key renamed c1 k1 i1 = stored_key renamed c2 k2 i2 -> k1 = k2) ->
  forall k val idx c,
    In (k, (val, idx)) items -> dict_get k counts = Some c ->
    dict_get (stored_key renamed c k idx) R = Some val.
Proof.
  induction items as [|[k0 [val0 idx0]] items IH];
    intros res R HR Hnd Hinj k val idx c Hin Hc; [contradiction|].
  cbn [List.map fst] in Hnd. inversion_clear Hnd as [|? ? Hnot Hnd'].
  cbn [result_loop] in HR. destruct (dict_get k0 counts) as [c0|] eqn:Ec0;
    [|discriminate].
  cbn [bind] in HR. destruct Hin as [Hin|Hin].
  - injection Hin as -> -> ->. rewrite Hc in Ec0. injection Ec0 as <-.
    assert (Hrest : forall k' val' idx' c', In (k', (val', idx')) items ->
              dict_get k' counts = Some c' ->
              stored_key renamed c' k' idx' <> stored_key renamed c k idx).
    { intros k' val' idx' c' Hin' Hc' Heq. apply Hnot.
      assert (k' = k).
      { apply (Hinj k' val' idx' c' k val idx c); auto; [now right | now left]. }
      subst k'. apply in_map_iff. now exists (k, (val', idx')). }
    erewrite result_loop_keep; [| exact HR | exact Hrest].
    unfold stored_key. now rewrite dict_get_set, str_eqb_refl.
  - apply (IH _ _ HR Hnd'); [|exact Hin | exact Hc].
    intros k1 v1 i1 c1 k2 v2 i2 c2 H1 H2.
    apply (Hinj k1 v1 i1 c1 k2 v2 i2 c2); now right.
Qed.

Lemma uint_digits_plain (u : Decimal.uint) : ~ In 0x5F%N (uint_digits u).
Proof.
  induction u; simpl; intros H; try contradiction;
    destruct H as [H|H]; try discriminate; contradiction.
Qed.

Lemma app_first_eq (x : char) (a b c d : str) :
  ~ In x a -> ~ In x c -> a ++ x :: b = c ++ x :: d -> a = c.
Proof.
  revert c. induction a as [|y a IH]; intros [|z c] Ha Hc H.
  - reflexivity.
  - simpl in H. injection H as -> _. exfalso. apply Hc. now left.
  - simpl in H. injection H as -> _. exfalso. apply Ha. now left.
  - simpl in H. injection H as -> H. f_equal.
    apply IH; [| | exact H]; intros Hin; [apply Ha | apply Hc]; now right.
Qed.

Lemma stored_key_inj (r : int -> bool) c1 c2 (k1 k2 : str) i1 i2 :
  ~ In 0x5F%N k1 -> ~ In 0x5F%N k2 ->
  stored_key r c1 k1 i1 = stored_key r c2 k2 i2 -> k1 = k2.
Proof.
  intros H1 H2. unfold stored_key, indexed_key.
  destruct (r c1), (r c2); intros H.
  - eapply app_first_eq; [exact H1 | exact H2 | exact H].
  - exfalso. apply H2. rewrite <- H. apply in_or_app. right. now left.
  - exfalso. apply H1. rewrite H. apply in_or_app. right. now left.
  - exact H.
Qed.

(** X9.  For dicts that hold each key once and keys without underscore:
    when dict number [i] is the first to hold the largest value [m] of a
    key [k], the merge maps [k] to [m] if no other dict holds [k], and it
    maps [k], an underscore and [i] in decimal to [m] if another dict does;
    among equal largest values the earliest dict gives the index. *)
Theorem merge_key_result (dicts : list (dict int)) (k : str)
  (pre post : list (nat * int)) (i : nat) (m : int) :
  well_formed dicts -> plain_keys dicts ->
  occurrences k 1 dicts = pre ++ (i, m) :: post ->
  (forall j v, In (j, v) pre -> (v < m)%Z) ->
  (forall j v, In (j, v) post -> (v <= m)%Z) ->
  exists result,
    merge_by_max_with_index dicts = Some result
    /\ dict_get (match pre ++ post with
                 | [] => k
                 | _ :: _ => indexed_key k i
                 end) result = Some m.
Proof.
  intros Hwf Hplain Hocc Hpre Hpost. unfold merge_by_max_with_index.
  set (winners := winners_loop 1 dicts []).
  set (counts := count_loop dicts []).
  assert (Hcounted : forall k x, In (k, x) winners ->
            exists n, dict_get k counts = Some n
                      /\ (n >? 1)%Z = (n >? 1)%Z).
  { intros k' x Hin. destruct (winners_counted dicts k' x Hin) as (n & Hn & _).
    now exists n. }
  destruct (result_loop_ext _ _ _ _ Hcounted []) as [_ [R HR]].
  exists R. split; [exact HR|].
  assert (Hwin : dict_get k winners = Some (m, i)).
  { unfold winners. rewrite winners_loop_get by exact Hwf.
    rewrite Hocc. now apply best_fold_first. }
  assert (Hcnt : dict_get k counts
                 = Some (Z.of_nat (length (pre ++ (i, m) :: post)))).
  { unfold counts. rewrite count_loop_get with (idx := 1) by exact Hwf.
    rewrite Hocc. destruct (pre ++ (i, m) :: post) eqn:E.
    - now destruct pre.
    - reflexivity. }
  assert (Hkey : stored_key (fun c => (c >? 1)%Z)
                   (Z.of_nat (length (pre ++ (i, m) :: post))) k i
                 = match pre ++ post with [] => k | _ :: _ => indexed_key k i end).
  { unfold stored_key. rewrite length_app. cbn [length].
    destruct pre as [|p pre]; cbn [app length].
    - destruct post as [|q post]; cbn [length]; [reflexivity|].
      replace (Z.of_nat (0 + S (S (length post))) >? 1)%Z with true;
        [reflexivity | symmetry; apply Z.gtb_lt; lia].
    - replace (Z.of_nat (S (length pre) + S (length post)) >? 1)%Z with true;
        [reflexivity | symmetry; apply Z.gtb_lt; lia]. }
  rewrite <- Hkey.
  eapply result_loop_get; [exact HR | | | |].
  - apply winners_loop_nodup. constructor.
  - intros k1 v1 i1 c1 k2 v2 i2 c2 H1 H2 _ _.
    apply stored_key_inj.
    + destruct (@winners_key k1 dicts Hwf) as (d & Hd & Hk);
        [apply in_map_iff; now exists (k1, (v1, i1)) | now apply (Hplain d)].
    + destruct (@winners_key k2 dicts Hwf) as (d & Hd & Hk);
        [apply in_map_iff; now exists (k2, (v2, i2)) | now apply (Hplain d)].
  - now apply dict_get_some_in.
  - exact Hcnt.
Qed.

(** ** Dicts without a common key *)

Lemma dict_set_fresh {V} (k : str) (v : V) (d : dict V) :
  dict_get k d = None -> dict_set k v d = d ++ [(k, v)].
Proof.
  induction d as [|[k0 v0] d IH]; [reflexivity|]. simpl.
  destruct (str_eqb k k0); [discriminate|]. intros H. now rewrite IH.
Qed.

Lemma nodup_app_fresh (a : list str) (k : str) (b : list str) :
  NoDup (a ++ k :: b) -> ~ In k a /\ NoDup ((a ++ [k]) ++ b).
Proof.
  intros H. split.
  - apply NoDup_remove_2 in H. intros Hin. apply H. apply in_or_app. now left.
  - now rewrite <- app_assoc.
Qed.

Lemma winners_fold_fresh idx (d : dict int) : forall w,
  NoDup (List.map fst w ++ List.map fst d) ->
  fold_left (winners_step idx) d w
  = w ++ List.map (fun kv => (fst kv, (snd kv, idx))) d.
Proof.
  induction d as [|[k v] d IH]; intros w Hnd; [now rewrite app_nil_r|].
  cbn [List.map fst] in Hnd. destruct (nodup_app_fresh _ _ _ Hnd) as [Hk Hnd'].
  cbn [fold_left]. unfold winners_step at 2.
  apply dict_get_none in Hk. rewrite Hk, (dict_set_fresh _ _ _ Hk).
  rewrite IH by now rewrite map_app. cbn [List.map fst snd].
  now rewrite <- app_assoc.
Qed.

Lemma winners_loop_fresh (dicts : list (dict int)) : forall idx w,
  NoDup (List.map fst w ++ List.map fst (concat dicts)) ->
  List.map (fun e => (fst e, fst (snd e))) (winners_loop idx dicts w)
  = List.map (fun e => (fst e, fst (snd e))) w ++ concat dicts.
Proof.
  induction dicts as [|d ds IH]; intros idx w Hnd; [now rewrite app_nil_r|].
  cbn [concat] in Hnd. rewrite map_app, app_assoc in Hnd.
  cbn [winners_loop].
  rewrite winners_fold_fresh by (apply (NoDup_app_remove_r _ _ Hnd)).
  rewrite IH.
  - rewrite map_app, map_map, <- app_assoc. cbn [concat fst snd]. f_equal. f_equal.
    rewrite <- (map_id d) at 2. apply map_ext. now intros [k v].
  - rewrite map_app, map_map. cbn [fst]. exact Hnd.
Qed.

Lemma count_fold_fresh (keys : list str) : forall counts,
  NoDup (List.map fst counts ++ keys) ->
  fold_left count_step keys counts
  = counts ++ List.map (fun k => (k, 1%Z)) keys.
Proof.
  induction keys as [|k keys IH]; intros counts Hnd; [now rewrite app_nil_r|].
  destruct (nodup_app_fresh _ _ _ Hnd) as [Hk Hnd'].
  cbn [fold_left]. unfold count_step at 2.
  apply dict_get_none in Hk. rewrite Hk, (dict_set_fresh _ _ _ Hk).
  rewrite IH by now rewrite map_app. cbn [List.map].
  now rewrite <- app_assoc.
Qed.

Lemma count_loop_concat (dicts : list (dict int)) : forall counts,
  count_loop dicts counts
  = fold_left count_step (List.map fst (concat dicts)) counts.
Proof.
  unfold count_loop. induction dicts as [|d ds IH]; intros counts; [reflexivity|].
  cbn [fold_left concat]. now rewrite IH, map_app, fold_left_app.
Qed.

Lemma result_loop_fresh (r : int -> bool) (counts : dict int)
  (items : list (str * (int * nat))) : forall res,
  r 1%Z = false ->
  (forall e, In e items -> dict_get (fst e) counts = Some 1%Z) ->
  NoDup (List.map fst res ++ List.map fst items) ->
  result_loop r items counts res
  = Some (res ++ List.map (fun e => (fst e, fst (snd e))) items).
Proof.
  induction items as [|[k [val idx]] items IH]; intros res Hr Hc Hnd;
    [now rewrite app_nil_r|].
  cbn [List.map fst] in Hnd. destruct (nodup_app_fresh _ _ _ Hnd) as [Hk Hnd'].
  pose proof (Hc (k, (val, idx)) (or_introl eq_refl)) as Hck. cbn [fst] in Hck.
  cbn [result_loop]. rewrite Hck. cbn [bind]. rewrite Hr.
  apply dict_get_none in Hk. rewrite (dict_set_fresh _ _ _ Hk).
  rewrite IH; [| exact Hr | intros e He; apply Hc; now right
               | now rewrite map_app].
  cbn [List.map fst snd]. now rewrite <- app_assoc.
Qed.

(** X10.  When no key occurs twice in the dicts, in one dict or in two, the
    merge is the dicts put one after the other: every key as it is, with
    its value, in the order of the input. *)
Theorem merge_disjoint (dicts : list (dict int)) :
  NoDup (List.map fst (concat dicts)) ->
  merge_by_max_with_index dicts = Some (concat dicts).
Proof.
  intros Hnd. unfold merge_by_max_with_index.
  pose proof (winners_loop_fresh dicts 1 [] Hnd) as Hw. cbn [List.map app] in Hw.
  assert (Hkeys : List.map fst (winners_loop 1 dicts [])
                  = List.map fst (concat dicts)).
  { rewrite <- Hw, map_map. reflexivity. }
  rewrite result_loop_fresh.
  - now rewrite Hw.
  - reflexivity.
  - intros e He. rewrite count_loop_concat, count_fold_fresh by exact Hnd.
    cbn [app]. apply dict_in_get_some.
    + rewrite map_map. cbn [fst]. now rewrite map_id.
    + apply in_map_iff. exists (fst e). split; [reflexivity|].
      rewrite <- Hkeys. now apply in_map.
  - cbn [List.map app]. now rewrite Hkeys.
Qed.

(** * Properties of the sorting script *)

Lemma list_set_app {A} (pre : list A) (x y : A) (r : list A) :
  list_set (pre ++ x :: r) (length pre) y = Some (pre ++ y :: r).
Proof.
  unfold list_set.
  replace (length pre <? length (pre ++ x :: r)) with true
    by (symmetry; apply Nat.ltb_lt; rewrite length_app; simpl; lia).
  rewrite firstn_app, Nat.sub_diag, firstn_all. cbn [firstn]. rewrite app_nil_r.
  replace (S (length pre)) with (length pre + 1) by lia.
  rewrite skipn_app, skipn_all2 by lia.
  replace (length pre + 1 - length pre) with 1 by lia. reflexivity.
Qed.

Lemma compare_swap_at (pre : list int) (a b : int) (r : list int) :
  compare_swap (pre ++ a :: b :: r) (length pre)
  = Some (pre ++ if (a >? b)%Z then b :: a :: r else a :: b :: r).
Proof.
  unfold compare_swap.
  rewrite nth_error_app2, Nat.sub_diag by lia. cbn [nth_error bind].
  rewrite nth_error_app2 by lia.
  replace (length pre + 1 - length pre) with 1 by lia. cbn [nth_error bind].
  destruct (a >? b)%Z; [|reflexivity].
  rewrite list_set_app. cbn [bind].
  change (pre ++ b :: b :: r) with (pre ++ [b] ++ b :: r).
  rewrite app_assoc.
  replace (length pre + 1) with (length (pre ++ [b]))
    by (rewrite length_app; reflexivity).
  rewrite list_set_app. now rewrite <- app_assoc.
Qed.

Lemma pass_bubble (k : nat) : forall (pre l : list int),
  k < length l ->
  for_each (seq (length pre) k) compare_swap (pre ++ l)
  = Some (pre ++ bubble k l).
Proof.
  induction k as [|k IH]; intros pre l Hk.
  - destruct l; reflexivity.
  - destruct l as [|a [|b r]]; try (simpl in Hk; lia).
    cbn [seq for_each]. rewrite compare_swap_at. cbn [bind bubble].
    destruct (a >? b)%Z.
    + change (pre ++ b :: a :: r) with (pre ++ [b] ++ a :: r).
      rewrite app_assoc.
      replace (S (length pre)) with (length (pre ++ [b]))
        by (rewrite length_app; simpl; lia).
      rewrite IH by (simpl in *; lia). now rewrite <- app_assoc.
    + change (pre ++ a :: b :: r) with (pre ++ [a] ++ b :: r).
      rewrite app_assoc.
      replace (S (length pre)) with (length (pre ++ [a]))
        by (rewrite length_app; simpl; lia).
      rewrite IH by (simpl in *; lia). now rewrite <- app_assoc.
Qed.

Lemma inner_pass_bubble (l : list int) (i : nat) :
  inner_pass l i = Some (bubble (length l - i - 1) l).
Proof.
  unfold inner_pass. destruct (length l - i - 1) as [|k] eqn:E.
  - destruct l; reflexivity.
  - apply (@pass_bubble (S k) [] l). lia.
Qed.

Lemma bubble_app (k : nat) : forall (p s : list int),
  k < length p -> bubble k (p ++ s) = bubble k p ++ s.
Proof.
  induction k as [|k IH]; intros p s Hk.
  - destruct p; [simpl in Hk; lia|]. destruct (p ++ s); destruct p; reflexivity.
  - destruct p as [|a [|b r]]; try (simpl in Hk; lia).
    cbn [app bubble]. destruct (a >? b)%Z.
    + change (a :: r ++ s) with ((a :: r) ++ s).
      rewrite IH by (simpl in *; lia). reflexivity.
    + change (b :: r ++ s) with ((b :: r) ++ s).
      rewrite IH by (simpl in *; lia). reflexivity.
Qed.

(** One pass over a list brings its largest number to the end. *)
Lemma bubble_max (k : nat) : forall (p : list int),
  length p = S k ->
  exists q m,
    bubble k p = q ++ [m]
    /\ Permutation p (q ++ [m])
    /\ forall x, In x q -> (x <= m)%Z.
Proof.
  induction k as [|k IH]; intros p Hlen.
  - destruct p as [|a [|b r]]; try discriminate.
    exists [], a. repeat split; [reflexivity | contradiction].
  - destruct p as [|a [|b r]]; try discriminate.
    cbn [bubble]. destruct (Z.gtb_spec a b) as [Hgt|Hle].
    + destruct (IH (a :: r)) as (q & m & Hb & Hp & Hq); [simpl in *; lia|].
      exists (b :: q), m. rewrite Hb. repeat split.
      * rewrite perm_swap. now constructor.
      * assert (Ha : In a (q ++ [m])) by (apply (Permutation_in _ Hp); now left).
        assert (Ham : (a <= m)%Z).
        { apply in_app_or in Ha. destruct Ha as [Ha|[<-|[]]]; [now apply Hq | lia]. }
        intros x [<-|Hx]; [lia | now apply Hq].
    + destruct (IH (b :: r)) as (q & m & Hb & Hp & Hq); [simpl in *; lia|].
      exists (a :: q), m. rewrite Hb. repeat split.
      * now constructor.
      * assert (Hbm : In b (q ++ [m])) by (apply (Permutation_in _ Hp); now left).
        assert (Hbm' : (b <= m)%Z).
        { apply in_app_or in Hbm. destruct Hbm as [Hbm|[<-|[]]]; [now apply Hq | lia]. }
        intros x [<-|Hx]; [lia | now apply Hq].
Qed.

Lemma pass_step (input : list int) (i : nat) (l : list int) :
  passes_done input i l -> i < length input ->
  passes_done input (S i) (bubble (length l - i - 1) l).
Proof.
  intros (front & back & -> & Hback & Hlen & Hsorted & Hle & Hperm) Hi.
  rewrite length_app in Hlen.
  assert (Hf : length front = S (length front - 1)) by lia.
  destruct (@bubble_max (length front - 1) front Hf) as (q & m & Hb & Hp & Hq).
  replace (length (front ++ back) - i - 1) with (length front - 1)
    by (rewrite length_app; lia).
  rewrite bubble_app by lia. rewrite Hb, <- app_assoc.
  exists q, (m :: back). 
  assert (Hm : In m front).
  { apply (Permutation_in _ (Permutation_sym Hp)). apply in_or_app. right. now left. }
  assert (Hqf : forall x, In x q -> In x front).
  { intros x Hx. apply (Permutation_in _ (Permutation_sym Hp)).
    apply in_or_app. now left. }
  repeat split.
  - simpl. lia.
  - apply (f_equal (@length _)) in Hb.
    rewrite <- Hlen, !length_app. rewrite length_app in Hb.
    apply Permutation_length in Hp. rewrite length_app in Hp. simpl in *. lia.
  - constructor; [exact Hsorted|]. apply Forall_forall. intros y Hy. now apply Hle.
  - intros x y Hx [<-|Hy]; [now apply Hq | apply Hle; auto].
  - rewrite Hperm. change (q ++ m :: back) with (q ++ [m] ++ back).
    rewrite app_assoc. now apply Permutation_app_tail.
Qed.

Lemma passes_loop (input : list int) (m : nat) : forall i l,
  i + m = length input -> passes_done input i l ->
  exists l', for_each (seq i m) inner_pass l = Some l'
             /\ passes_done input (i + m) l'.
Proof.
  induction m as [|m IH]; intros i l Him Hdone.
  - exists l. rewrite Nat.add_0_r. now split.
  - cbn [seq for_each]. rewrite inner_pass_bubble. cbn [bind].
    destruct (IH (S i) (bubble (length l - i - 1) l)) as (l' & Hl' & Hd');
      [lia | apply pass_step; [exact Hdone | lia] |].
    exists l'. split; [exact Hl'|]. now replace (i + S m) with (S i + m) by lia.
Qed.

(** X11.  The two nested loops sort every list of numbers: they raise no
    [IndexError], and they leave the list in ascending order and a
    permutation of what it was. *)
Theorem bubble_sort_sorts (numbers : list int) :
  exists sorted,
    bubble_sort numbers = Some sorted
    /\ StronglySorted Z.le sorted
    /\ Permutation numbers sorted.
Proof.
  assert (H0 : passes_done numbers 0 numbers).
  { exists numbers, []. rewrite app_nil_r. repeat split; try constructor.
    - intros x y _ [].
    - apply Permutation_refl. }
  destruct (@passes_loop numbers (length numbers) 0 numbers eq_refl H0)
    as (l' & Hl' & (front & back & -> & Hback & Hlen & Hsorted & _ & Hperm)).
  exists (front ++ back). split; [exact Hl'|].
  rewrite length_app in Hlen. cbn [Nat.add] in Hback.
  assert (front = []) by (destruct front; [reflexivity | simpl in Hlen; lia]).
  subst front. now split.
Qed.

Lemma filter_sorted (p : int -> bool) (l : list int) :
  StronglySorted Z.le l -> StronglySorted Z.le (filter p l).
Proof.
  induction 1 as [|a l Hs IH Hall]; simpl; [constructor|].
  destruct (p a); [|exact IH]. constructor; [exact IH|].
  rewrite Forall_forall in *. intros x Hx. apply filter_In in Hx. now apply Hall.
Qed.

Lemma even_odd_split (l : list int) :
  Permutation l (even_numbers l ++ odd_numbers l).
Proof.
  unfold even_numbers, odd_numbers. induction l as [|a l IH]; simpl; [constructor|].
  destruct (a mod 2 =? 0)%Z; simpl.
  - now constructor.
  - now apply Permutation_cons_app.
Qed.

(** X12.  For every list of numbers the script ends with three lists: the
    sorted numbers, and the even and the odd ones among them, each in
    ascending order and together a permutation of the numbers. *)
Theorem sort_and_split_lists (numbers : list int) :
  exists sorted evens_ odds_,
    sort_and_split numbers = Some (sorted, evens_, odds_)
    /\ StronglySorted Z.le evens_
    /\ StronglySorted Z.le odds_
    /\ Forall (fun n => (n mod 2 = 0)%Z) evens_
    /\ Forall (fun n => (n mod 2 = 1)%Z) odds_
    /\ Permutation numbers (evens_ ++ odds_).
Proof.
  assert (H0 : passes_done numbers 0 numbers).
  { exists numbers, []. rewrite app_nil_r. repeat split; try constructor.
    - intros x y _ [].
    - apply Permutation_refl. }
  destruct (@passes_loop numbers (length numbers) 0 numbers eq_refl H0)
    as (l' & Hl' & (front & back & -> & Hback & Hlen & Hsorted & _ & Hperm)).
  rewrite length_app in Hlen. cbn [Nat.add] in Hback.
  assert (front = []) by (destruct front; [reflexivity | simpl in Hlen; lia]).
  subst front. cbn [app] in *.
  exists back, (even_numbers back), (odd_numbers back).
  unfold sort_and_split, bubble_sort. rewrite Hl'. cbn [bind].
  repeat split.
  - now apply filter_sorted.
  - now apply filter_sorted.
  - apply Forall_forall. intros x Hx. apply filter_In in Hx.
    destruct Hx as [_ Hx]. now apply Z.eqb_eq in Hx.
  - apply Forall_forall. intros x Hx. apply filter_In in Hx.
    destruct Hx as [_ Hx]. apply negb_true_iff, Z.eqb_neq in Hx.
    pose proof (Z.mod_pos_bound x 2). lia.
  - rewrite Hperm. apply even_odd_split.
Qed.

(** ** Concrete dicts *)

Lemma three_dicts_well_formed :
  well_formed [[(lit "a", 5%Z); (lit "b", 7%Z)];
               [(lit "a", 9%Z); (lit "c", 1%Z)];
               [(lit "a", 9%Z)]].
Proof.
  intros d [<-|[<-|[<-|[]]]]; repeat constructor; simpl; intuition discriminate.
Qed.

Lemma three_dicts_plain :
  plain_keys [[(lit "a", 5%Z); (lit "b", 7%Z)];
              [(lit "a", 9%Z); (lit "c", 1%Z)];
              [(lit "a", 9%Z)]].
Proof.
  intros d k [<-|[<-|[<-|[]]]]; simpl; intuition (subst; simpl in *; intuition discriminate).
Qed.

Lemma merge_key_result_witness :
  exists result,
    merge_by_max_with_index [[(lit "a", 5%Z); (lit "b", 7%Z)];
                             [(lit "a", 9%Z); (lit "c", 1%Z)];
                             [(lit "a", 9%Z)]] = Some result
    /\ dict_get (indexed_key (lit "a") 2) result = Some 9%Z.
Proof.
  apply (@merge_key_result _ (lit "a") [(1, 5%Z)] [(3, 9%Z)] 2 9%Z
           three_dicts_well_formed three_dicts_plain eq_refl).
  - intros j v [H|[]]. injection H as <- <-. lia.
  - intros j v [H|[]]. injection H as <- <-. lia.
Defined.

Lemma merge_disjoint_witness :
  NoDup (List.map fst (concat [[(lit "a", 5%Z); (lit "b", 7%Z)];
                               [(lit "c", 1%Z)]]))
  /\ merge_by_max_with_index [[(lit "a", 5%Z); (lit "b", 7%Z)]; [(lit "c", 1%Z)]]
     = Some (concat [[(lit "a", 5%Z); (lit "b", 7%Z)]; [(lit "c", 1%Z)]]).
Proof.
  assert (H : NoDup (List.map fst (concat [[(lit "a", 5%Z); (lit "b", 7%Z)];
                                           [(lit "c", 1%Z)]]))).
  { repeat constructor; simpl; intuition discriminate. }
  split; [exact H | exact (merge_disjoint _ H)].
Defined.
